(** * MatDialogRef: the handle of an opened dialog

    A shallow embedding of [src/lib/dialog/dialog-ref.ts].  The handle is a
    record of its fields; every method and every subscription callback of the
    class is a function on that record.  The objects the handle talks to (the
    overlay, its position strategy, the container, the location subscription)
    are seen through the calls the handle makes on them, kept in
    chronological order in the field [calls].  The module-level counter
    [uniqueId] and the handles allocated so far make up a [Process]. *)

From Stdlib Require Import NArith ZArith String List Bool Lia.
From stdpp Require Import base tactics option list strings pretty.

Local Open Scope string_scope.
Local Open Scope list_scope.

(** ** JavaScript values *)

(** A field that may hold [undefined], [null] or an object. *)
Inductive Nullable (A : Type) : Type :=
| js_undefined
| js_null
| js_value (a : A).
Arguments js_undefined {A}.
Arguments js_null {A}.
Arguments js_value {A} a.

(** Truthiness of a [string | undefined]: [undefined] and the empty string
    are falsy. *)
Definition truthy_string (v : option string) : bool :=
  match v with
  | Some s => negb (String.eqb s "")
  | None => false
  end.

(** Truthiness of a [boolean | undefined]. *)
Definition truthy_bool (v : option bool) : bool :=
  match v with
  | Some b => b
  | None => false
  end.

(** [Number.MAX_SAFE_INTEGER + 1]: up to here a JavaScript number counts
    exactly. *)
Definition two_53 : N := 9007199254740992.

(** [n++] on a JavaScript number holding a natural number: exact below
    [2^53]; at [2^53] the sum [2^53 + 1] is not a double and rounds (ties to
    even) back to [2^53].  Starting from 0 a counter never gets past
    [2^53], so the last branch is all a counter can meet. *)
Definition js_incr (n : N) : N :=
  if (n <? two_53)%N then (n + 1)%N else n.

(** ** RxJS subjects

    Of a [Subject] the handle uses [next] and [complete].  The subscribers of
    the three notification subjects are code of the dialog's opener; the
    model records what they are sent: the values in order, and whether the
    subject has completed. *)
Module Subject.

Record t (A : Type) : Type := mk { emitted : list A; isStopped : bool }.
Arguments mk {A} emitted isStopped.
Arguments emitted {A} _.
Arguments isStopped {A} _.

(** [new Subject<A>()] *)
Definition new {A : Type} : t A := mk [] false.

(** [subject.next(v)]: nothing is delivered once the subject stopped. *)
Definition next {A : Type} (v : A) (s : t A) : t A :=
  if isStopped s then s else mk (emitted s ++ [v]) false.

(** [subject.complete()] *)
Definition complete {A : Type} (s : t A) : t A := mk (emitted s) true.

End Subject.

(** ** Collaborators *)

(** An event of the container's [_animationStateChanged] stream, with the two
    fields the handle reads. *)
Record AnimationEvent : Type := { phaseName : string; toState : string }.

(** A keyboard event of the overlay's [keydownEvents()] stream. *)
Record KeyboardEvent : Type := { keyCode : Z }.

(** Modelled from the spec: the interface [DialogPosition] of
    [./dialog-config], which is not under src/; it has the four optional
    offsets [top], [bottom], [left] and [right] that [updatePosition]
    reads. *)
Module DialogPosition.
Record t : Type :=
  { top : option string; bottom : option string;
    left : option string; right : option string }.
End DialogPosition.

(** Modelled from the spec: the configuration held by the container
    ([./dialog-config], not under src/), with the two fields the handle
    reads, [_config.disableClose] and [_config.closeOnNavigation]. *)
Record MatDialogConfig : Type :=
  { config_disableClose : option bool;
    config_closeOnNavigation : option bool }.

(** Modelled from the spec: the [MatDialogContainer] of [./dialog-container],
    which is not under src/.  The handle writes [_id], reads [_config],
    subscribes to [_animationStateChanged] and calls
    [_startExitAnimation()]; the subscriptions are fields of the handle
    below and the call is logged in [calls]. *)
Record MatDialogContainer : Type :=
  { _id : string; _config : MatDialogConfig }.

(** [Subscription.EMPTY], or the subscription returned by
    [location.subscribe], which is closed by [unsubscribe()]. *)
Inductive SubscriptionLike : Type :=
| Subscription_EMPTY
| location_subscription (closed : bool).

Definition unsubscribe (s : SubscriptionLike) : SubscriptionLike :=
  match s with
  | Subscription_EMPTY => Subscription_EMPTY
  | location_subscription _ => location_subscription true
  end.

(** Whether the location still calls the handle back. *)
Definition is_live (s : SubscriptionLike) : bool :=
  match s with
  | location_subscription false => true
  | _ => false
  end.

(** Modelled from the spec: the methods of the overlay ([OverlayRef]) and of
    its position strategy ([GlobalPositionStrategy]) of [@angular/cdk/overlay],
    which are not under src/.  What they do is outside the handle; each call
    the handle makes is recorded with the argument it passes. *)
Inductive Call : Type :=
| overlay_dispose
| overlay_detachBackdrop
| overlay_updatePosition
| strategy_left (value : option string)
| strategy_right (value : option string)
| strategy_top (value : option string)
| strategy_bottom (value : option string)
| strategy_centerHorizontally
| strategy_centerVertically
| strategy_width (value : string)
| strategy_height (value : string)
| container_startExitAnimation
| locationChanges_unsubscribe.

Global Instance Call_eq_dec : EqDecision Call.
Proof. solve_decision. Defined.

(** How often a call occurs in a log. *)
Definition count_call (c : Call) (l : list Call) : nat :=
  length (filter (λ x, x = c) l).

(** ** The handle *)

Section MatDialogRef.

(** [T] is the type of the component opened into the dialog, [R] the type of
    the result handed to [close]. *)
Context {T R : Type}.

(** The key code [ESCAPE] of [@angular/cdk/keycodes], which is not under
    src/: a parameter of the development. *)
Variable ESCAPE : Z.

(** The fields of the class, then the handle's three kinds of subscription to
    [_containerInstance._animationStateChanged], then the log of the calls
    made on the collaborators.

    - [openSubscription] and [closedSubscription] are the two [take(1)]
      subscriptions of the constructor: [true] until they have fired;
    - [closeSubscriptions] are the [take(1)] subscriptions made by [close]
      that have not fired yet, in subscription order, each with the
      [dialogResult] its callback closes over. *)
Record MatDialogRef : Type :=
  { id : string;
    componentInstance : Nullable T;
    disableClose : option bool;
    _afterOpen : Subject.t unit;
    _afterClosed : Subject.t (option R);
    _beforeClose : Subject.t (option R);
    _result : option R;
    _locationChanges : SubscriptionLike;
    _containerInstance : MatDialogContainer;
    openSubscription : bool;
    closedSubscription : bool;
    closeSubscriptions : list (option R);
    calls : list Call }.

(** *** Field updates *)

Definition set_componentInstance (v : Nullable T) (s : MatDialogRef) :=
  {| id := id s; componentInstance := v; disableClose := disableClose s;
     _afterOpen := _afterOpen s; _afterClosed := _afterClosed s;
     _beforeClose := _beforeClose s; _result := _result s;
     _locationChanges := _locationChanges s;
     _containerInstance := _containerInstance s;
     openSubscription := openSubscription s;
     closedSubscription := closedSubscription s;
     closeSubscriptions := closeSubscriptions s; calls := calls s |}.

Definition set_disableClose (v : option bool) (s : MatDialogRef) :=
  {| id := id s; componentInstance := componentInstance s; disableClose := v;
     _afterOpen := _afterOpen s; _afterClosed := _afterClosed s;
     _beforeClose := _beforeClose s; _result := _result s;
     _locationChanges := _locationChanges s;
     _containerInstance := _containerInstance s;
     openSubscription := openSubscription s;
     closedSubscription := closedSubscription s;
     closeSubscriptions := closeSubscriptions s; calls := calls s |}.

Definition set_afterOpen (v : Subject.t unit) (s : MatDialogRef) :=
  {| id := id s; componentInstance := componentInstance s;
     disableClose := disableClose s;
     _afterOpen := v; _afterClosed := _afterClosed s;
     _beforeClose := _beforeClose s; _result := _result s;
     _locationChanges := _locationChanges s;
     _containerInstance := _containerInstance s;
     openSubscription := openSubscription s;
     closedSubscription := closedSubscription s;
     closeSubscriptions := closeSubscriptions s; calls := calls s |}.

Definition set_afterClosed (v : Subject.t (option R)) (s : MatDialogRef) :=
  {| id := id s; componentInstance := componentInstance s;
     disableClose := disableClose s;
     _afterOpen := _afterOpen s; _afterClosed := v;
     _beforeClose := _beforeClose s; _result := _result s;
     _locationChanges := _locationChanges s;
     _containerInstance := _containerInstance s;
     openSubscription := openSubscription s;
     closedSubscription := closedSubscription s;
     closeSubscriptions := closeSubscriptions s; calls := calls s |}.

Definition set_beforeClose (v : Subject.t (option R)) (s : MatDialogRef) :=
  {| id := id s; componentInstance := componentInstance s;
     disableClose := disableClose s;
     _afterOpen := _afterOpen s; _afterClosed := _afterClosed s;
     _beforeClose := v; _result := _result s;
     _locationChanges := _locationChanges s;
     _containerInstance := _containerInstance s;
     openSubscription := openSubscription s;
     closedSubscription := closedSubscription s;
     closeSubscriptions := closeSubscriptions s; calls := calls s |}.

Definition set_result (v : option R) (s : MatDialogRef) :=
  {| id := id s; componentInstance := componentInstance s;
     disableClose := disableClose s;
     _afterOpen := _afterOpen s; _afterClosed := _afterClosed s;
     _beforeClose := _beforeClose s; _result := v;
     _locationChanges := _locationChanges s;
     _containerInstance := _containerInstance s;
     openSubscription := openSubscription s;
     closedSubscription := closedSubscription s;
     closeSubscriptions := closeSubscriptions s; calls := calls s |}.

Definition set_locationChanges (v : SubscriptionLike) (s : MatDialogRef) :=
  {| id := id s; componentInstance := componentInstance s;
     disableClose := disableClose s;
     _afterOpen := _afterOpen s; _afterClosed := _afterClosed s;
     _beforeClose := _beforeClose s; _result := _result s;
     _locationChanges := v;
     _containerInstance := _containerInstance s;
     openSubscription := openSubscription s;
     closedSubscription := closedSubscription s;
     closeSubscriptions := closeSubscriptions s; calls := calls s |}.

Definition set_openSubscription (v : bool) (s : MatDialogRef) :=
  {| id := id s; componentInstance := componentInstance s;
     disableClose := disableClose s;
     _afterOpen := _afterOpen s; _afterClosed := _afterClosed s;
     _beforeClose := _beforeClose s; _result := _result s;
     _locationChanges := _locationChanges s;
     _containerInstance := _containerInstance s;
     openSubscription := v;
     closedSubscription := closedSubscription s;
     closeSubscriptions := closeSubscriptions s; calls := calls s |}.

Definition set_closedSubscription (v : bool) (s : MatDialogRef) :=
  {| id := id s; componentInstance := componentInstance s;
     disableClose := disableClose s;
     _afterOpen := _afterOpen s; _afterClosed := _afterClosed s;
     _beforeClose := _beforeClose s; _result := _result s;
     _locationChanges := _locationChanges s;
     _containerInstance := _containerInstance s;
     openSubscription := openSubscription s;
     closedSubscription := v;
     closeSubscriptions := closeSubscriptions s; calls := calls s |}.

Definition set_closeSubscriptions (v : list (option R)) (s : MatDialogRef) :=
  {| id := id s; componentInstance := componentInstance s;
     disableClose := disableClose s;
     _afterOpen := _afterOpen s; _afterClosed := _afterClosed s;
     _beforeClose := _beforeClose s; _result := _result s;
     _locationChanges := _locationChanges s;
     _containerInstance := _containerInstance s;
     openSubscription := openSubscription s;
     closedSubscription := closedSubscription s;
     closeSubscriptions := v; calls := calls s |}.

(** A call on a collaborator, appended to the log. *)
Definition call (c : Call) (s : MatDialogRef) :=
  {| id := id s; componentInstance := componentInstance s;
     disableClose := disableClose s;
     _afterOpen := _afterOpen s; _afterClosed := _afterClosed s;
     _beforeClose := _beforeClose s; _result := _result s;
     _locationChanges := _locationChanges s;
     _containerInstance := _containerInstance s;
     openSubscription := openSubscription s;
     closedSubscription := closedSubscription s;
     closeSubscriptions := closeSubscriptions s; calls := calls s ++ [c] |}.

(** *** The constructor

    [constructor container location id uniqueId] is
    [new MatDialogRef(overlayRef, container, location, id)] run when the
    module variable [uniqueId] holds [uniqueId]; it gives the new handle and
    the new value of the variable.  [location] tells whether a [Location] was
    passed; [id = None] is an omitted (or [undefined]) fourth argument, for
    which the default [`mat-dialog-${uniqueId++}`] is evaluated. *)
Definition constructor (container : MatDialogContainer) (location : bool)
    (id_arg : option string) (uniqueId : N) : MatDialogRef * N :=
  let '(id, uniqueId) :=
    match id_arg with
    | Some given => (given, uniqueId)
    | None => ("mat-dialog-" +:+ pretty uniqueId, js_incr uniqueId)
    end in
  ({| id := id;
      componentInstance := js_undefined;
      disableClose := config_disableClose (_config container);
      _afterOpen := Subject.new;
      _afterClosed := Subject.new;
      _beforeClose := Subject.new;
      _result := None;
      _locationChanges :=
        if location then location_subscription false else Subscription_EMPTY;
      _containerInstance := {| _id := id; _config := _config container |};
      openSubscription := true;
      closedSubscription := true;
      closeSubscriptions := [];
      calls := [] |}, uniqueId).

(** *** Subscriptions to the animation stream *)

(** [event.phaseName === 'done' && event.toState === 'enter'] *)
Definition filter_enter_done (event : AnimationEvent) : bool :=
  String.eqb (phaseName event) "done" && String.eqb (toState event) "enter".

(** [event.phaseName === 'done' && event.toState === 'exit'] *)
Definition filter_exit_done (event : AnimationEvent) : bool :=
  String.eqb (phaseName event) "done" && String.eqb (toState event) "exit".

(** [event.phaseName === 'start'], the filter of the subscription made by
    [close]. *)
Definition filter_start (event : AnimationEvent) : bool :=
  String.eqb (phaseName event) "start".

(** Callback of the first subscription of the constructor. *)
Definition on_enter_done (s : MatDialogRef) : MatDialogRef :=
  let s := set_afterOpen (Subject.next tt (_afterOpen s)) s in
  set_afterOpen (Subject.complete (_afterOpen s)) s.

(** Callback of the second subscription of the constructor. *)
Definition on_exit_done (s : MatDialogRef) : MatDialogRef :=
  let s := call overlay_dispose s in
  let s := call locationChanges_unsubscribe s in
  let s := set_locationChanges (unsubscribe (_locationChanges s)) s in
  let s := set_afterClosed (Subject.next (_result s) (_afterClosed s)) s in
  let s := set_afterClosed (Subject.complete (_afterClosed s)) s in
  set_componentInstance js_null s.

(** Callback of the subscription made by [close(dialogResult)]. *)
Definition on_start (dialogResult : option R) (s : MatDialogRef)
    : MatDialogRef :=
  let s := set_beforeClose (Subject.next dialogResult (_beforeClose s)) s in
  let s := set_beforeClose (Subject.complete (_beforeClose s)) s in
  call overlay_detachBackdrop s.

(** [_animationStateChanged] emits [event]: the stream calls its subscribers
    in subscription order, the two of the constructor first, then those of
    the [close] calls.  A [take(1)] subscription whose filter lets the event
    through runs its callback and is gone. *)
Definition animationStateChanged (event : AnimationEvent) (s : MatDialogRef)
    : MatDialogRef :=
  let s :=
    if openSubscription s && filter_enter_done event
    then set_openSubscription false (on_enter_done s) else s in
  let s :=
    if closedSubscription s && filter_exit_done event
    then set_closedSubscription false (on_exit_done s) else s in
  if filter_start event
  then fold_left (λ s dialogResult, on_start dialogResult s)
         (closeSubscriptions s) (set_closeSubscriptions [] s)
  else s.

(** *** Methods *)

(** [close(dialogResult?)] *)
Definition close (dialogResult : option R) (s : MatDialogRef) : MatDialogRef :=
  let s := set_result dialogResult s in
  let s := set_closeSubscriptions (closeSubscriptions s ++ [dialogResult]) s in
  call container_startExitAnimation s.

(** The subscription to [_overlayRef.keydownEvents()]:
    [filter(event => event.keyCode === ESCAPE && !this.disableClose)], then
    [this.close()]. *)
Definition filter_escape (event : KeyboardEvent) (s : MatDialogRef) : bool :=
  Z.eqb (keyCode event) ESCAPE && negb (truthy_bool (disableClose s)).

Definition keydownEvent (event : KeyboardEvent) (s : MatDialogRef)
    : MatDialogRef :=
  if filter_escape event s then close None s else s.

(** The location changes: the callback passed to [location.subscribe] runs as
    long as [_locationChanges] is the live subscription. *)
Definition locationChange (s : MatDialogRef) : MatDialogRef :=
  if is_live (_locationChanges s)
  then
    if truthy_bool (config_closeOnNavigation (_config (_containerInstance s)))
    then close None s else s
  else s.

(** [updatePosition(position?)]; the returned [this] is added where the
    method is called on a reference, see [call_updatePosition]. *)
Definition updatePosition (position : option DialogPosition.t)
    (s : MatDialogRef) : MatDialogRef :=
  let s :=
    match position with
    | Some position =>
        if truthy_string (DialogPosition.left position)
           || truthy_string (DialogPosition.right position)
        then
          if truthy_string (DialogPosition.left position)
          then call (strategy_left (DialogPosition.left position)) s
          else call (strategy_right (DialogPosition.right position)) s
        else call strategy_centerHorizontally s
    | None => call strategy_centerHorizontally s
    end in
  let s :=
    match position with
    | Some position =>
        if truthy_string (DialogPosition.top position)
           || truthy_string (DialogPosition.bottom position)
        then
          if truthy_string (DialogPosition.top position)
          then call (strategy_top (DialogPosition.top position)) s
          else call (strategy_bottom (DialogPosition.bottom position)) s
        else call strategy_centerVertically s
    | None => call strategy_centerVertically s
    end in
  call overlay_updatePosition s.

(** [updateSize(width = 'auto', height = 'auto')] *)
Definition updateSize (width height : option string) (s : MatDialogRef)
    : MatDialogRef :=
  let width := default "auto" width in
  let height := default "auto" height in
  let s := call (strategy_width width) s in
  let s := call (strategy_height height) s in
  call overlay_updatePosition s.

(** *** What can happen to a handle

    The events its subscriptions receive, the calls of its methods, and the
    writes to its two public mutable fields. *)
Inductive Input : Type :=
| AnimationStateChanged (event : AnimationEvent)
| KeydownEvent (event : KeyboardEvent)
| LocationChange
| Close (dialogResult : option R)
| UpdatePosition (position : option DialogPosition.t)
| UpdateSize (width height : option string)
| SetDisableClose (value : option bool)
| SetComponentInstance (value : Nullable T).

Definition step (i : Input) (s : MatDialogRef) : MatDialogRef :=
  match i with
  | AnimationStateChanged event => animationStateChanged event s
  | KeydownEvent event => keydownEvent event s
  | LocationChange => locationChange s
  | Close dialogResult => close dialogResult s
  | UpdatePosition position => updatePosition position s
  | UpdateSize width height => updateSize width height s
  | SetDisableClose value => set_disableClose value s
  | SetComponentInstance value => set_componentInstance value s
  end.

Definition run (inputs : list Input) (s : MatDialogRef) : MatDialogRef :=
  fold_left (λ s i, step i s) inputs s.

(** Whether an input makes the handle run [close]. *)
Definition invokes_close (i : Input) (s : MatDialogRef) : bool :=
  match i with
  | Close _ => true
  | KeydownEvent event => filter_escape event s
  | LocationChange =>
      is_live (_locationChanges s)
      && truthy_bool (config_closeOnNavigation (_config (_containerInstance s)))
  | _ => false
  end.

(** No input of the list makes the handle run [close], from [s] on. *)
Fixpoint no_close (inputs : list Input) (s : MatDialogRef) : bool :=
  match inputs with
  | [] => true
  | i :: inputs => negb (invokes_close i s) && no_close inputs (step i s)
  end.

Definition is_enter_done (i : Input) : bool :=
  match i with
  | AnimationStateChanged event => filter_enter_done event
  | _ => false
  end.

Definition is_exit_done (i : Input) : bool :=
  match i with
  | AnimationStateChanged event => filter_exit_done event
  | _ => false
  end.

Definition is_start (i : Input) : bool :=
  match i with
  | AnimationStateChanged event => filter_start event
  | _ => false
  end.

(** ** The process: the module variable and the handles

    A reference to a handle is its index in allocation order. *)
Abbreviation ref := nat (only parsing).

Record Process : Type :=
  { uniqueId : N; handles : list MatDialogRef }.

(** [let uniqueId = 0;] and no handle yet. *)
Definition initial_process : Process := {| uniqueId := 0; handles := [] |}.

(** [new MatDialogRef(overlayRef, container, location, id)] *)
Definition new_MatDialogRef (container : MatDialogContainer) (location : bool)
    (id_arg : option string) (p : Process) : Process * ref :=
  let '(h, u) := constructor container location id_arg (uniqueId p) in
  ({| uniqueId := u; handles := handles p ++ [h] |}, length (handles p)).

(** Something happens to the handle that [this] refers to. *)
Definition on_handle (this : ref) (f : MatDialogRef -> MatDialogRef)
    (p : Process) : Process :=
  {| uniqueId := uniqueId p; handles := alter f this (handles p) |}.

(** [this.updatePosition(position)], which ends in [return this]. *)
Definition call_updatePosition (this : ref)
    (position : option DialogPosition.t) (p : Process) : Process * ref :=
  (on_handle this (updatePosition position) p, this).

(** [this.updateSize(width, height)], which ends in [return this]. *)
Definition call_updateSize (this : ref) (width height : option string)
    (p : Process) : Process * ref :=
  (on_handle this (updateSize width height) p, this).

(** A run of the process: handles are constructed, and things happen to the
    handles there are. *)
Inductive Op : Type :=
| op_new (container : MatDialogContainer) (location : bool)
    (id_arg : option string)
| op_input (this : ref) (i : Input).

Definition exec_op (o : Op) (p : Process) : Process :=
  match o with
  | op_new container location id_arg =>
      fst (new_MatDialogRef container location id_arg p)
  | op_input this i => on_handle this (step i) p
  end.

Definition exec (ops : list Op) (p : Process) : Process :=
  fold_left (λ p o, exec_op o p) ops p.

(** The [id] arguments of the constructor calls of a run, in order: the
    handle of reference [k] was constructed by the [k]-th of them. *)
Definition id_args (ops : list Op) : list (option string) :=
  omap (λ o, match o with
             | op_new _ _ id_arg => Some id_arg
             | op_input _ _ => None
             end) ops.

(** How many of the [id] arguments were omitted. *)
Definition defaults (l : list (option string)) : nat :=
  length (filter (λ a, a = None) l).

(** A container to run the handle on: closing is allowed, and the dialog
    closes on navigation. *)
Definition example_container : MatDialogContainer :=
  {| _id := "";
     _config := {| config_disableClose := Some false;
                   config_closeOnNavigation := Some true |} |}.

(** The first handle of a process, opened on [example_container] with a
    [Location]. *)
Definition example_handle : MatDialogRef :=
  (constructor example_container true None 0).1.

(** Some animation events. *)
Definition enter_start : AnimationEvent :=
  {| phaseName := "start"; toState := "enter" |}.
Definition enter_done : AnimationEvent :=
  {| phaseName := "done"; toState := "enter" |}.
Definition exit_start : AnimationEvent :=
  {| phaseName := "start"; toState := "exit" |}.
Definition exit_done : AnimationEvent :=
  {| phaseName := "done"; toState := "exit" |}.

(** A run of the process: four handles, the third with an id of its own. *)
Definition example_ops : list Op :=
  [op_new example_container true None;
   op_input 0 (Close None);
   op_new example_container false None;
   op_new example_container false (Some "settings");
   op_new example_container false None].

(** The value of [uniqueId] once [k] handles got the default id. *)
Definition counter_after (k : nat) : N := Nat.iter k js_incr 0%N.

(** A handle as it can be: a freshly constructed one, after any inputs. *)
Definition reachable (s : MatDialogRef) : Prop :=
  ∃ container location id_arg uniqueId inputs,
    s = run inputs (constructor container location id_arg uniqueId).1.

(** What the second subscription of the constructor has done so far: nothing
    ([fired = false]), or its one delivery on [_afterClosed]. *)
Definition closed_state (fired : bool) (s : MatDialogRef) : Prop :=
  if fired
  then closedSubscription s = false ∧ Subject.isStopped (_afterClosed s) = true
  else closedSubscription s = true ∧ _afterClosed s = Subject.new.

(** The same for the first subscription and [_afterOpen]. *)
Definition open_state (fired : bool) (s : MatDialogRef) : Prop :=
  if fired
  then openSubscription s = false ∧ _afterOpen s = Subject.mk [()] true
  else openSubscription s = true ∧ _afterOpen s = Subject.new.

(** An offset of a [DialogPosition] is given when it is there and is not the
    empty string. *)
Definition given (v : option string) : Prop := ∃ s, v = Some s ∧ s ≠ "".

(** The calls that belong to the life of the dialog, as opposed to its
    position and size. *)
Definition lifecycle_calls : list Call :=
  [container_startExitAnimation; overlay_detachBackdrop; overlay_dispose;
   locationChanges_unsubscribe].

(** How many inputs of the list make the handle run [close], from [s] on. *)
Fixpoint close_count (inputs : list Input) (s : MatDialogRef) : nat :=
  match inputs with
  | [] => 0
  | i :: inputs =>
      (if invokes_close i s then 1 else 0) + close_count inputs (step i s)
  end.

(** A subject that has not emitted, or has emitted one value and
    completed. *)
Definition fired_once {A : Type} (sub : Subject.t A) : Prop :=
  sub = Subject.new ∨ ∃ v, sub = Subject.mk [v] true.

(** What [_beforeClose] becomes when the callbacks of the pending [close]
    subscriptions run on it, in order. *)
Definition fire_all (pending : list (option R))
    (sub : Subject.t (option R)) : Subject.t (option R) :=
  fold_left (λ sub dialogResult,
               Subject.complete (Subject.next dialogResult sub)) pending sub.

(** ** Properties of the handle *)

Lemma truthy_string_given v : truthy_string v = true ↔ given v.
Proof.
  unfold given; destruct v as [s|]; simpl.
  - destruct (String.eqb_spec s "") as [->|Hne]; simpl; split.
    + done.
    + intros (s' & Hs' & Hne). congruence.
    + intros _. eexists; split; [reflexivity | exact Hne].
    + done.
  - split; [done | intros (s & Hs & _); done].
Qed.

Lemma truthy_string_not_given v : truthy_string v = false ↔ ¬ given v.
Proof.
  rewrite <- truthy_string_given. by destruct (truthy_string v).
Qed.

Lemma given_or_not v : given v ∨ ¬ given v.
Proof.
  destruct (truthy_string v) eqn:E.
  - left. by apply truthy_string_given.
  - right. by apply truthy_string_not_given.
Qed.

(** The callbacks of the [close] subscriptions touch [_beforeClose] and the
    log only. *)
Lemma fold_on_start_frame (l : list (option R)) (s : MatDialogRef) :
  let s' := fold_left (λ s dialogResult, on_start dialogResult s) l s in
  id s' = id s ∧ componentInstance s' = componentInstance s ∧
  disableClose s' = disableClose s ∧ _afterOpen s' = _afterOpen s ∧
  _afterClosed s' = _afterClosed s ∧ _result s' = _result s ∧
  _locationChanges s' = _locationChanges s ∧
  _containerInstance s' = _containerInstance s ∧
  openSubscription s' = openSubscription s ∧
  closedSubscription s' = closedSubscription s ∧
  closeSubscriptions s' = closeSubscriptions s.
Proof.
  revert s; induction l as [|r l IH]; intros s; simpl; [done|].
  specialize (IH (on_start r s)); simpl in IH. apply IH.
Qed.

Ltac frame_fold :=
  match goal with
  | |- context [fold_left _ ?l ?s0] =>
      let H := fresh in
      pose proof (fold_on_start_frame l s0) as H; simpl in H;
      destruct H as (?&?&?&?&?&?&?&?&?&?&?)
  end.

(** [id] is [readonly]: nothing that happens to a handle changes it. *)
Lemma step_id (i : Input) (s : MatDialogRef) : id (step i s) = id s.
Proof.
  destruct i as [e|e| |r|position|w h|v|v]; simpl; try done.
  - unfold animationStateChanged.
    repeat (case_match; simpl); try done; frame_fold; simpl in *; congruence.
  - unfold keydownEvent. by case_match.
  - unfold locationChange. by repeat case_match.
  - unfold updatePosition. by repeat (case_match; simpl).
Qed.

(** *** The three filters *)

Lemma filter_enter_done_spec (e : AnimationEvent) :
  filter_enter_done e = true ↔ phaseName e = "done" ∧ toState e = "enter".
Proof.
  unfold filter_enter_done.
  rewrite andb_true_iff, !String.eqb_eq. done.
Qed.

Lemma filter_exit_done_spec (e : AnimationEvent) :
  filter_exit_done e = true ↔ phaseName e = "done" ∧ toState e = "exit".
Proof.
  unfold filter_exit_done.
  rewrite andb_true_iff, !String.eqb_eq. done.
Qed.

Lemma filter_start_spec (e : AnimationEvent) :
  filter_start e = true ↔ phaseName e = "start".
Proof. unfold filter_start. by rewrite String.eqb_eq. Qed.

(** A [done]/[exit] event passes neither of the other two filters. *)
Lemma filter_exit_done_only (e : AnimationEvent) :
  filter_exit_done e = true →
  filter_enter_done e = false ∧ filter_start e = false.
Proof.
  rewrite filter_exit_done_spec. intros [Hp Ht].
  unfold filter_enter_done, filter_start. by rewrite Hp, Ht.
Qed.

(** A [start] event passes neither filter of the constructor. *)
Lemma filter_start_only (e : AnimationEvent) :
  filter_start e = true →
  filter_enter_done e = false ∧ filter_exit_done e = false.
Proof.
  rewrite filter_start_spec. intros Hp.
  unfold filter_enter_done, filter_exit_done. by rewrite Hp.
Qed.

(** *** What an animation event does, field by field *)

Ltac solve_event :=
  unfold animationStateChanged; simpl;
  repeat (case_match; simpl in * );
  try frame_fold; simpl in *; congruence.

Lemma event_openSubscription e s :
  openSubscription (animationStateChanged e s)
  = if openSubscription s && filter_enter_done e then false
    else openSubscription s.
Proof. solve_event. Qed.

Lemma event_afterOpen e s :
  _afterOpen (animationStateChanged e s)
  = if openSubscription s && filter_enter_done e
    then Subject.complete (Subject.next () (_afterOpen s))
    else _afterOpen s.
Proof. solve_event. Qed.

Lemma event_closedSubscription e s :
  closedSubscription (animationStateChanged e s)
  = if closedSubscription s && filter_exit_done e then false
    else closedSubscription s.
Proof. solve_event. Qed.

Lemma event_afterClosed e s :
  _afterClosed (animationStateChanged e s)
  = if closedSubscription s && filter_exit_done e
    then Subject.complete (Subject.next (_result s) (_afterClosed s))
    else _afterClosed s.
Proof. solve_event. Qed.

Lemma event_componentInstance e s :
  componentInstance (animationStateChanged e s)
  = if closedSubscription s && filter_exit_done e then js_null
    else componentInstance s.
Proof. solve_event. Qed.

Lemma event_locationChanges e s :
  _locationChanges (animationStateChanged e s)
  = if closedSubscription s && filter_exit_done e
    then unsubscribe (_locationChanges s)
    else _locationChanges s.
Proof. solve_event. Qed.

Lemma event_result e s : _result (animationStateChanged e s) = _result s.
Proof. solve_event. Qed.

Lemma event_closeSubscriptions e s :
  closeSubscriptions (animationStateChanged e s)
  = if filter_start e then [] else closeSubscriptions s.
Proof. solve_event. Qed.

(** An event that is not a [start] leaves [_beforeClose] alone. *)
Lemma event_beforeClose_other e s :
  filter_start e = false →
  _beforeClose (animationStateChanged e s) = _beforeClose s.
Proof. intros He. unfold animationStateChanged. rewrite He. solve_event. Qed.

(** *** The opened notification *)

Lemma constructor_open_state container location id_arg uniqueId :
  open_state false (constructor container location id_arg uniqueId).1.
Proof. unfold constructor. by destruct id_arg. Qed.

Ltac solve_other_inputs :=
  first
    [ done
    | unfold keydownEvent; by case_match
    | unfold locationChange; by repeat case_match
    | unfold updatePosition; by repeat (case_match; simpl) ].

Lemma step_open_state (b : bool) (i : Input) (s : MatDialogRef) :
  open_state b s → open_state (b || is_enter_done i) (step i s).
Proof.
  assert (Hb : ∀ b, b || false = b) by (by intros []).
  destruct i as [e|e| |r|position|w h|v|v]; simpl; rewrite ?Hb;
    try solve_other_inputs.
  unfold open_state.
  destruct b; simpl; intros [Hsub Hsubj];
    rewrite event_openSubscription, event_afterOpen, Hsub, Hsubj; simpl;
    [done|].
  by destruct (filter_enter_done e).
Qed.

Lemma run_open_state (inputs : list Input) (b : bool) (s : MatDialogRef) :
  open_state b s → open_state (b || existsb is_enter_done inputs) (run inputs s).
Proof.
  revert b s; induction inputs as [|i inputs IH]; intros b s H; simpl.
  - by rewrite orb_false_r.
  - rewrite orb_assoc. apply IH. by apply step_open_state.
Qed.

(** *** The closed notification *)

Lemma constructor_closed_state container location id_arg uniqueId :
  closed_state false (constructor container location id_arg uniqueId).1.
Proof. unfold constructor. by destruct id_arg. Qed.

Lemma step_closed_state (b : bool) (i : Input) (s : MatDialogRef) :
  closed_state b s → closed_state (b || is_exit_done i) (step i s).
Proof.
  assert (Hb : ∀ b, b || false = b) by (by intros []).
  destruct i as [e|e| |r|position|w h|v|v]; simpl; rewrite ?Hb;
    try solve_other_inputs.
  unfold closed_state.
  destruct b; simpl; intros [Hsub Hsubj];
    rewrite event_closedSubscription, event_afterClosed, Hsub; simpl;
    [done|].
  rewrite Hsubj. by destruct (filter_exit_done e).
Qed.

Lemma run_closed_state (inputs : list Input) (b : bool) (s : MatDialogRef) :
  closed_state b s →
  closed_state (b || existsb is_exit_done inputs) (run inputs s).
Proof.
  revert b s; induction inputs as [|i inputs IH]; intros b s H; simpl.
  - by rewrite orb_false_r.
  - rewrite orb_assoc. apply IH. by apply step_closed_state.
Qed.

(** Once the closed notification has fired, [_afterClosed] stays as it is. *)
Lemma step_afterClosed_fired (i : Input) (s : MatDialogRef) :
  closedSubscription s = false →
  closedSubscription (step i s) = false ∧
  _afterClosed (step i s) = _afterClosed s.
Proof.
  intros Hsub.
  destruct i as [e|e| |r|position|w h|v|v]; simpl;
    try solve_other_inputs.
  by rewrite event_closedSubscription, event_afterClosed, Hsub.
Qed.

Lemma run_afterClosed_fired (inputs : list Input) (s : MatDialogRef) :
  closedSubscription s = false →
  closedSubscription (run inputs s) = false ∧
  _afterClosed (run inputs s) = _afterClosed s.
Proof.
  revert s; induction inputs as [|i inputs IH]; intros s Hsub; simpl; [done|].
  destruct (step_afterClosed_fired i s Hsub) as [H1 H2].
  destruct (IH _ H1) as [H3 H4]. unfold run in *. split; congruence.
Qed.

(** The calls made on a [done]/[exit] event. *)
Lemma event_calls_exit_done e s :
  filter_exit_done e = true →
  calls (animationStateChanged e s)
  = calls s ++ (if closedSubscription s
                then [overlay_dispose; locationChanges_unsubscribe] else []).
Proof.
  intros He. destruct (filter_exit_done_only e He) as [He1 He2].
  unfold animationStateChanged. rewrite He, He1, He2, andb_false_r; simpl.
  rewrite andb_true_r. destruct (closedSubscription s); simpl.
  - by rewrite <- app_assoc.
  - by rewrite app_nil_r.
Qed.

(** C5.  Whatever happens to a freshly constructed handle, [_afterOpen] has
    emitted exactly once and completed if an animation event with phase
    [done] and target state [enter] was among the inputs, and has neither
    emitted nor completed otherwise; so it does not emit before such an
    event, and it ignores the later ones.  An input that changes [_afterOpen]
    is such an event, and the first of them. *)
Theorem afterOpen_emits_once container location id_arg uniqueId
    (inputs : list Input) :
  let s := run inputs (constructor container location id_arg uniqueId).1 in
  _afterOpen s
  = (if existsb is_enter_done inputs
     then Subject.mk [()] true else Subject.new) ∧
  ∀ i, _afterOpen (step i s) ≠ _afterOpen s →
       (∃ event, i = AnimationStateChanged event ∧
                 phaseName event = "done" ∧ toState event = "enter") ∧
       existsb is_enter_done inputs = false.
Proof.
  intros s.
  pose proof (run_open_state inputs false _
                (constructor_open_state container location id_arg uniqueId))
    as H.
  fold s in H; simpl in H.
  split.
  - destruct (existsb is_enter_done inputs); simpl in H; by destruct H.
  - intros i Hne.
    pose proof (step_open_state _ i s H) as Hi.
    destruct (existsb is_enter_done inputs); simpl in *.
    + destruct H as [_ H2], Hi as [_ Hi2]. congruence.
    + destruct (is_enter_done i) eqn:Hdone; simpl in *.
      * split; [|done]. destruct i as [event| | | | | | |]; try done.
        exists event. split; [done|]. by apply filter_enter_done_spec.
      * destruct H as [_ H2], Hi as [_ Hi2]. congruence.
Qed.

(** C6.  On the first [done]/[exit] animation event the handle disposes the
    overlay, unsubscribes from the location changes, emits the stored result
    on [_afterClosed] and completes it, and sets [componentInstance] to
    [null]. *)
Theorem exit_done_disposes container location id_arg uniqueId
    (inputs : list Input) (event : AnimationEvent) :
  existsb is_exit_done inputs = false →
  phaseName event = "done" →
  toState event = "exit" →
  let s := run inputs (constructor container location id_arg uniqueId).1 in
  let s' := animationStateChanged event s in
  calls s' = calls s ++ [overlay_dispose; locationChanges_unsubscribe] ∧
  is_live (_locationChanges s') = false ∧
  _afterClosed s' = Subject.mk [_result s] true ∧
  componentInstance s' = js_null.
Proof.
  intros Hfirst Hp Ht s s'.
  assert (He : filter_exit_done event = true)
    by (by apply filter_exit_done_spec).
  pose proof (run_closed_state inputs false _
                (constructor_closed_state container location id_arg uniqueId))
    as H.
  fold s in H. rewrite Hfirst in H. destruct H as [Hsub Hsubj].
  unfold s'.
  rewrite event_calls_exit_done, event_locationChanges, event_afterClosed,
    event_componentInstance, Hsub, He, Hsubj by done.
  simpl. repeat split.
  by destruct (_locationChanges s).
Qed.

(** *** Closing *)

(** A [start] event runs the callbacks of the pending [close] subscriptions,
    and nothing else. *)
Lemma event_start e s :
  filter_start e = true →
  animationStateChanged e s
  = fold_left (λ s dialogResult, on_start dialogResult s)
      (closeSubscriptions s) (set_closeSubscriptions [] s).
Proof.
  intros He. destruct (filter_start_only e He) as [He1 He2].
  unfold animationStateChanged. by rewrite He, He1, He2, !andb_false_r.
Qed.

(** An input that does not run [close] keeps the stored result; if it is not
    a [start] event either, it keeps [_beforeClose] and the pending [close]
    subscriptions. *)
Lemma step_quiet (i : Input) (s : MatDialogRef) :
  invokes_close i s = false →
  _result (step i s) = _result s ∧
  (is_start i = false →
   _beforeClose (step i s) = _beforeClose s ∧
   closeSubscriptions (step i s) = closeSubscriptions s).
Proof.
  destruct i as [e|e| |r|position|w h|v|v]; simpl; intros Hq; try done.
  - split; [apply event_result|]. intros He.
    by rewrite event_beforeClose_other, event_closeSubscriptions, He.
  - unfold keydownEvent. by rewrite Hq.
  - unfold locationChange.
    destruct (is_live _); [|done]. simpl in Hq. by rewrite Hq.
  - unfold updatePosition. by repeat (case_match; simpl).
Qed.

Lemma run_quiet_result (inputs : list Input) (s : MatDialogRef) :
  no_close inputs s = true → _result (run inputs s) = _result s.
Proof.
  revert s; induction inputs as [|i inputs IH]; intros s; simpl; [done|].
  rewrite andb_true_iff, negb_true_iff. intros [Hi Hrest].
  unfold run in IH. rewrite IH by done. by apply step_quiet.
Qed.

(** *** The escape key *)

Lemma count_call_app (c : Call) (l1 l2 : list Call) :
  count_call c (l1 ++ l2) = count_call c l1 + count_call c l2.
Proof. unfold count_call. by rewrite filter_app, length_app. Qed.

(** C7.  A keydown event with the escape key code, delivered while
    [disableClose] is [false], runs [close()] with no result, once: the exit
    animation of the container is started one more time.  A keydown event
    delivered while [disableClose] is [true], or with another key code,
    changes nothing. *)
Theorem escape_closes_once (event : KeyboardEvent) (s : MatDialogRef) :
  (keyCode event = ESCAPE → disableClose s = Some false →
   keydownEvent event s = close None s ∧
   count_call container_startExitAnimation (calls (keydownEvent event s))
   = S (count_call container_startExitAnimation (calls s))) ∧
  (disableClose s = Some true ∨ keyCode event ≠ ESCAPE →
   keydownEvent event s = s).
Proof.
  unfold keydownEvent, filter_escape. split.
  - intros -> ->. rewrite Z.eqb_refl; simpl. split; [done|].
    rewrite count_call_app. unfold count_call at 2; simpl. lia.
  - intros [-> | Hne]; simpl.
    + by rewrite andb_false_r.
    + apply Z.eqb_neq in Hne. by rewrite Hne.
Qed.

(** *** Position and size *)

(** The three calls of [updatePosition]: one for the horizontal axis, one for
    the vertical axis, and the recomputation of the overlay's position. *)
Lemma updatePosition_calls (position : option DialogPosition.t)
    (s : MatDialogRef) :
  let left := position ≫= DialogPosition.left in
  let right := position ≫= DialogPosition.right in
  let top := position ≫= DialogPosition.top in
  let bottom := position ≫= DialogPosition.bottom in
  ∃ horizontal vertical,
    calls (updatePosition position s)
    = calls s ++ [horizontal; vertical; overlay_updatePosition] ∧
    (given left → horizontal = strategy_left left) ∧
    (¬ given left → given right → horizontal = strategy_right right) ∧
    (¬ given left → ¬ given right →
     horizontal = strategy_centerHorizontally) ∧
    (given top → vertical = strategy_top top) ∧
    (¬ given top → given bottom → vertical = strategy_bottom bottom) ∧
    (¬ given top → ¬ given bottom → vertical = strategy_centerVertically).
Proof.
  unfold updatePosition.
  destruct position as [[t b l r]|]; simpl.
  - destruct (truthy_string l) eqn:Hl, (truthy_string r) eqn:Hr,
      (truthy_string t) eqn:Ht, (truthy_string b) eqn:Hb; simpl;
      repeat match goal with
        | H : truthy_string _ = true |- _ => apply truthy_string_given in H
        | H : truthy_string _ = false |- _ =>
            apply truthy_string_not_given in H
        end;
      rewrite <- !app_assoc; simpl;
      eexists _, _; (split; [reflexivity|]); intuition done.
  - rewrite <- !app_assoc; simpl. eexists _, _. split; [reflexivity|].
    assert (¬ given None) by (intros (? & ? & ?); done). intuition done.
Qed.

(** C8.  [this.updatePosition(position)] makes three calls: on the position
    strategy [left] with the given left offset, or else [right] with the given
    right offset, or else, when neither is given, [centerHorizontally]; the
    same with [top], [bottom] and [centerVertically]; then [updatePosition] on
    the overlay.  When a horizontal offset is given no horizontal centring is
    called.  The call returns [this]. *)
Theorem updatePosition_anchors (this : ref)
    (position : option DialogPosition.t) (p : Process) (h : MatDialogRef) :
  handles p !! this = Some h →
  let left := position ≫= DialogPosition.left in
  let right := position ≫= DialogPosition.right in
  let top := position ≫= DialogPosition.top in
  let bottom := position ≫= DialogPosition.bottom in
  (call_updatePosition this position p).2 = this ∧
  ∃ h' horizontal vertical,
    handles (call_updatePosition this position p).1 !! this = Some h' ∧
    calls h' = calls h ++ [horizontal; vertical; overlay_updatePosition] ∧
    (given left → horizontal = strategy_left left) ∧
    (¬ given left → given right → horizontal = strategy_right right) ∧
    (¬ given left → ¬ given right →
     horizontal = strategy_centerHorizontally) ∧
    (given left ∨ given right →
     count_call strategy_centerHorizontally (calls h')
     = count_call strategy_centerHorizontally (calls h)) ∧
    (given top → vertical = strategy_top top) ∧
    (¬ given top → given bottom → vertical = strategy_bottom bottom) ∧
    (¬ given top → ¬ given bottom → vertical = strategy_centerVertically) ∧
    (given top ∨ given bottom →
     count_call strategy_centerVertically (calls h')
     = count_call strategy_centerVertically (calls h)).
Proof.
  intros Hh left right top bottom. split; [done|].
  destruct (updatePosition_calls position h)
    as (horizontal & vertical & Hcalls & Hl & Hr & Hch & Ht & Hb & Hcv).
  fold left right top bottom in Hl, Hr, Hch, Ht, Hb, Hcv.
  exists (updatePosition position h), horizontal, vertical.
  split.
  { change (alter (updatePosition position) this (handles p) !! this
            = Some (updatePosition position h)).
    by rewrite list_lookup_alter_eq, Hh. }
  split; [done|].
  pose proof given_or_not as Hdec.
  repeat split; try done.
  - intros Hgiven. rewrite Hcalls, count_call_app.
    assert (horizontal ≠ strategy_centerHorizontally) as Hne.
    { destruct (Hdec left) as [H|H].
      - by rewrite (Hl H).
      - destruct Hgiven as [?|H']; [done|]. by rewrite (Hr H H'). }
    assert (vertical ≠ strategy_centerHorizontally) as Hne'.
    { destruct (Hdec top) as [H|H]; [by rewrite (Ht H)|].
      destruct (Hdec bottom) as [H'|H'];
        [by rewrite (Hb H H') | by rewrite (Hcv H H')]. }
    unfold count_call at 2; simpl.
    rewrite !filter_cons, filter_nil.
    repeat case_decide; try done; simpl; lia.
  - intros Hgiven. rewrite Hcalls, count_call_app.
    assert (vertical ≠ strategy_centerVertically) as Hne.
    { destruct (Hdec top) as [H|H].
      - by rewrite (Ht H).
      - destruct Hgiven as [?|H']; [done|]. by rewrite (Hb H H'). }
    assert (horizontal ≠ strategy_centerVertically) as Hne'.
    { destruct (Hdec left) as [H|H]; [by rewrite (Hl H)|].
      destruct (Hdec right) as [H'|H'];
        [by rewrite (Hr H H') | by rewrite (Hch H H')]. }
    unfold count_call at 2; simpl.
    rewrite !filter_cons, filter_nil.
    repeat case_decide; try done; simpl; lia.
Qed.

(** C9.  [this.updateSize(width, height)] calls [width] and [height] on the
    position strategy, with ['auto'] for an omitted argument, then
    [updatePosition] on the overlay, once, and returns [this]. *)
Theorem updateSize_sets_both (this : ref) (width height : option string)
    (p : Process) (h : MatDialogRef) :
  handles p !! this = Some h →
  (call_updateSize this width height p).2 = this ∧
  ∃ h',
    handles (call_updateSize this width height p).1 !! this = Some h' ∧
    calls h'
    = calls h ++ [strategy_width (default "auto" width);
                  strategy_height (default "auto" height);
                  overlay_updatePosition] ∧
    count_call overlay_updatePosition (calls h')
    = S (count_call overlay_updatePosition (calls h)).
Proof.
  intros Hh. split; [done|].
  exists (updateSize width height h).
  split.
  { change (alter (updateSize width height) this (handles p) !! this
            = Some (updateSize width height h)).
    by rewrite list_lookup_alter_eq, Hh. }
  assert (Hcalls : calls (updateSize width height h)
                   = calls h ++ [strategy_width (default "auto" width);
                                 strategy_height (default "auto" height);
                                 overlay_updatePosition]).
  { unfold updateSize; simpl. by rewrite <- !app_assoc. }
  split; [done|].
  rewrite Hcalls, count_call_app. unfold count_call at 2; simpl. lia.
Qed.

(** C10.  In [updatePosition] an offset that is the empty string counts as
    absent.  With [left: ''] the horizontal call is [right] if a right offset
    is given and [centerHorizontally] if not; the same holds for [top: ''];
    and no call ever anchors an edge at the empty string. *)
Theorem updatePosition_empty_offset (position : DialogPosition.t)
    (s : MatDialogRef) :
  ∃ horizontal vertical,
    calls (updatePosition (Some position) s)
    = calls s ++ [horizontal; vertical; overlay_updatePosition] ∧
    (DialogPosition.left position = Some "" →
     (given (DialogPosition.right position) →
      horizontal = strategy_right (DialogPosition.right position)) ∧
     (¬ given (DialogPosition.right position) →
      horizontal = strategy_centerHorizontally)) ∧
    (DialogPosition.top position = Some "" →
     (given (DialogPosition.bottom position) →
      vertical = strategy_bottom (DialogPosition.bottom position)) ∧
     (¬ given (DialogPosition.bottom position) →
      vertical = strategy_centerVertically)) ∧
    ∀ c, c ∈ [horizontal; vertical] →
         c ∉ [strategy_left (Some ""); strategy_right (Some "");
              strategy_top (Some ""); strategy_bottom (Some "")].
Proof.
  destruct (updatePosition_calls (Some position) s)
    as (horizontal & vertical & Hcalls & Hl & Hr & Hch & Ht & Hb & Hcv).
  simpl in *.
  exists horizontal, vertical. split; [done|].
  assert (Hempty : ¬ given (Some "")) by (intros (? & [= <-] & ?); done).
  pose proof given_or_not as Hdec.
  split; [|split].
  - intros Hleft. rewrite Hleft in *. auto.
  - intros Htop. rewrite Htop in *. auto.
  - assert (Hh : horizontal ∉ [strategy_left (Some ""); strategy_right (Some "");
                   strategy_top (Some ""); strategy_bottom (Some "")]).
    { destruct (Hdec (DialogPosition.left position)) as [H|H].
      - rewrite (Hl H). rewrite !not_elem_of_cons. repeat split; try done.
        + intros [= Heq]. by rewrite Heq in H.
        + apply not_elem_of_nil.
      - destruct (Hdec (DialogPosition.right position)) as [H'|H'].
        + rewrite (Hr H H'). rewrite !not_elem_of_cons. repeat split; try done.
          * intros [= Heq]. by rewrite Heq in H'.
          * apply not_elem_of_nil.
        + rewrite (Hch H H'). rewrite !not_elem_of_cons.
          repeat split; try done. apply not_elem_of_nil. }
    assert (Hv : vertical ∉ [strategy_left (Some ""); strategy_right (Some "");
                   strategy_top (Some ""); strategy_bottom (Some "")]).
    { destruct (Hdec (DialogPosition.top position)) as [H|H].
      - rewrite (Ht H). rewrite !not_elem_of_cons. repeat split; try done.
        + intros [= Heq]. by rewrite Heq in H.
        + apply not_elem_of_nil.
      - destruct (Hdec (DialogPosition.bottom position)) as [H'|H'].
        + rewrite (Hb H H'). rewrite !not_elem_of_cons. repeat split; try done.
          * intros [= Heq]. by rewrite Heq in H'.
          * apply not_elem_of_nil.
        + rewrite (Hcv H H'). rewrite !not_elem_of_cons.
          repeat split; try done. apply not_elem_of_nil. }
    intros c Hc. rewrite !elem_of_cons, elem_of_nil in Hc.
    by destruct Hc as [-> | [-> | []]].
Qed.

(** ** Properties of the identifiers *)

(** Below [2^53] the counter counts. *)
Lemma counter_after_exact (k : nat) :
  (N.of_nat k ≤ two_53)%N → counter_after k = N.of_nat k.
Proof.
  induction k as [|k IH]; [done|]. intros Hk.
  unfold counter_after in *. rewrite Nat.iter_succ, IH by lia.
  unfold js_incr. destruct (N.ltb_spec (N.of_nat k) two_53); lia.
Qed.

(** It never goes down. *)
Lemma js_incr_le (n : N) : (n ≤ js_incr n)%N.
Proof. unfold js_incr. case_match; lia. Qed.

Lemma exec_snoc (ops : list Op) (o : Op) (p : Process) :
  exec (ops ++ [o]) p = exec_op o (exec ops p).
Proof. unfold exec. by rewrite fold_left_app. Qed.

Lemma defaults_app (l1 l2 : list (option string)) :
  defaults (l1 ++ l2) = defaults l1 + defaults l2.
Proof. unfold defaults. by rewrite filter_app, length_app. Qed.

(** A default id further on in the run has more default ids before it. *)
Lemma defaults_take_lt (l : list (option string)) (i j : nat) :
  l !! i = Some None → i < j →
  defaults (take i l) < defaults (take j l).
Proof.
  intros Hi Hij.
  rewrite <- (take_drop_middle l i None Hi) at 2.
  assert (Hlen : length (take i l) = i).
  { rewrite length_take. apply lookup_lt_Some in Hi. lia. }
  replace j with (length (take i l) + (j - i)) at 1 by lia.
  rewrite take_app_add. destruct (j - i) as [|d] eqn:Hd; [lia|].
  simpl. rewrite defaults_app.
  unfold defaults at 3. rewrite filter_cons. case_decide; [|done].
  simpl. lia.
Qed.

(** What a run from the initial process has built: the counter has counted
    the default ids, there is one handle for each constructor call, and each
    handle still has the id it was constructed with. *)
Lemma exec_from_initial (ops : list Op) :
  let p := exec ops initial_process in
  let args := id_args ops in
  uniqueId p = counter_after (defaults args) ∧
  length (handles p) = length args ∧
  ∀ i h a, handles p !! i = Some h → args !! i = Some a →
    id h = match a with
           | Some given => given
           | None =>
               "mat-dialog-" +:+ pretty (counter_after (defaults (take i args)))
           end.
Proof.
  induction ops as [|o ops IH] using rev_ind; [done|].
  simpl in *. rewrite exec_snoc. unfold id_args in *. rewrite omap_app.
  destruct IH as (IHu & IHl & IHid).
  set (p := exec ops initial_process) in *.
  set (args := omap _ ops) in *.
  destruct o as [container location id_arg | this i0]; simpl.
  - assert (Hnew : ∃ h,
        (new_MatDialogRef container location id_arg p).1
        = {| uniqueId := match id_arg with
                         | Some _ => uniqueId p
                         | None => js_incr (uniqueId p)
                         end;
             handles := handles p ++ [h] |} ∧
        id h = match id_arg with
               | Some given => given
               | None => "mat-dialog-" +:+ pretty (uniqueId p)
               end).
    { unfold new_MatDialogRef, constructor.
      destruct id_arg; simpl; eexists; split; reflexivity. }
    destruct Hnew as (hn & -> & Hid). simpl.
    split; [|split].
    + rewrite defaults_app. unfold defaults at 2.
      rewrite filter_cons, filter_nil.
      destruct id_arg; case_decide; try done; simpl.
      * by rewrite Nat.add_0_r.
      * rewrite Nat.add_1_r. unfold counter_after in *.
        by rewrite Nat.iter_succ, IHu.
    + rewrite !length_app. simpl. lia.
    + intros i h a Hh Ha.
      destruct (decide (i < length (handles p))) as [Hlt|Hge].
      * rewrite lookup_app_l in Hh by done.
        rewrite lookup_app_l in Ha by lia.
        rewrite take_app_le by lia. by apply IHid.
      * assert (i = length (handles p)) as ->.
        { apply lookup_lt_Some in Hh. rewrite length_app in Hh.
          simpl in Hh. lia. }
        rewrite list_lookup_middle in Hh by done.
        rewrite list_lookup_middle in Ha by done.
        injection Hh as <-. injection Ha as <-.
        rewrite IHl, take_app_length, Hid, IHu. done.
  - rewrite app_nil_r. split; [done|]. split.
    + by rewrite length_alter.
    + intros i h a Hh Ha.
      destruct (decide (this = i)) as [->|Hne].
      * rewrite list_lookup_alter_eq in Hh.
        destruct (handles p !! i) as [h0|] eqn:Hi; [|done].
        injection Hh as <-. rewrite step_id. by apply IHid.
      * rewrite list_lookup_alter_ne in Hh by done. by apply IHid.
Qed.

(** A handle keeps its place and its id, whatever the process does next. *)
Lemma exec_keeps_id (ops : list Op) (p : Process) (i : nat) (h : MatDialogRef) :
  handles p !! i = Some h →
  ∃ h', handles (exec ops p) !! i = Some h' ∧ id h' = id h.
Proof.
  revert p h; induction ops as [|o ops IH]; intros p h Hh; simpl.
  - by exists h.
  - destruct o as [container location id_arg | this i0]; simpl.
    + destruct (IH (new_MatDialogRef container location id_arg p).1 h)
        as (h' & Hh' & Hid); [|by exists h'].
      unfold new_MatDialogRef.
      destruct (constructor _ _ _ _) as [hn u]; simpl.
      rewrite lookup_app_l; [done|]. by apply lookup_lt_Some in Hh.
    + destruct (decide (this = i)) as [->|Hne].
      * destruct (IH (on_handle i (step i0) p) (step i0 h))
          as (h' & Hh' & Hid).
        { simpl. by rewrite list_lookup_alter_eq, Hh. }
        exists h'. by rewrite Hid, step_id.
      * destruct (IH (on_handle this (step i0) p) h) as (h' & Hh' & Hid).
        { simpl. by rewrite list_lookup_alter_ne. }
        by exists h'.
Qed.

(** The id of a handle constructed with the default id. *)
Lemma default_id_format_aux (ops : list Op) (i : nat) (h : MatDialogRef) :
  handles (exec ops initial_process) !! i = Some h →
  id_args ops !! i = Some None →
  (N.of_nat (defaults (take i (id_args ops))) ≤ two_53)%N →
  id h = "mat-dialog-" +:+ pretty (N.of_nat (defaults (take i (id_args ops)))) ∧
  uniqueId (exec ops initial_process)
  = counter_after (defaults (id_args ops)).
Proof.
  intros Hh Ha Hk.
  destruct (exec_from_initial ops) as (Hu & _ & Hid). split; [|done].
  rewrite (Hid i h None Hh Ha). by rewrite counter_after_exact.
Qed.

(** C1, as the code has it.  In a run of the process that starts with
    [uniqueId = 0], a handle constructed without an id has the id
    ["mat-dialog-<n>"], where [<n>] is the decimal numeral of the number of
    handles that got a default id before it: the counter starts at 0, each
    default id takes its value and adds one to it, and nothing else changes
    it.  (The count is exact as far as a JavaScript number counts, up to
    [2^53].) *)
Theorem default_id_format (ops : list Op) (i : nat) (h : MatDialogRef) :
  handles (exec ops initial_process) !! i = Some h →
  id_args ops !! i = Some None →
  (N.of_nat (defaults (take i (id_args ops))) ≤ two_53)%N →
  uniqueId initial_process = 0%N ∧
  id h = "mat-dialog-" +:+ pretty (N.of_nat (defaults (take i (id_args ops)))) ∧
  ∀ o p, (uniqueId p ≤ uniqueId (exec_op o p))%N.
Proof.
  intros Hh Ha Hk. split; [done|]. split.
  - by destruct (default_id_format_aux ops i h Hh Ha Hk).
  - intros [container location [given|] | this i0] p; simpl; try done.
    apply js_incr_le.
Qed.

(** C4.  In a run of the process, of two handles constructed with the default
    id the later one has the larger number in its id, and the two ids are
    different strings; and whatever the process does afterwards, a handle
    keeps the id it has.  (As far as a JavaScript number counts: the later
    handle is at most the [2^53]-th with a default id.) *)
Theorem default_ids_distinct_increasing (ops ops' : list Op) (i j : nat)
    (hi hj : MatDialogRef) :
  let p := exec ops initial_process in
  handles p !! i = Some hi →
  handles p !! j = Some hj →
  id_args ops !! i = Some None →
  id_args ops !! j = Some None →
  i < j →
  (N.of_nat (defaults (take j (id_args ops))) ≤ two_53)%N →
  id hi ≠ id hj ∧
  (∃ ni nj : N,
     id hi = "mat-dialog-" +:+ pretty ni ∧
     id hj = "mat-dialog-" +:+ pretty nj ∧ (ni < nj)%N) ∧
  ∃ hi', handles (exec ops' p) !! i = Some hi' ∧ id hi' = id hi.
Proof.
  intros p Hhi Hhj Hai Haj Hij Hk.
  pose proof (defaults_take_lt (id_args ops) i j Hai Hij) as Hlt.
  destruct (default_id_format_aux ops i hi Hhi Hai) as [Hi _]; [lia|].
  destruct (default_id_format_aux ops j hj Hhj Haj) as [Hj _]; [lia|].
  split; [|split].
  - rewrite Hi, Hj. simpl. intros [= Heq].
    pose proof (pretty_N_inj _ _ Heq). lia.
  - eexists _, _. split; [exact Hi|]. split; [exact Hj|]. lia.
  - by apply exec_keeps_id.
Qed.

(** ** Further properties of the handle *)

(** *** Subjects *)

Lemma fire_stopped {A : Type} (v : A) (sub : Subject.t A) :
  Subject.isStopped sub = true →
  Subject.complete (Subject.next v sub) = sub.
Proof.
  destruct sub as [em stopped]; simpl. intros ->. reflexivity.
Qed.

Lemma fire_open {A : Type} (v : A) (sub : Subject.t A) :
  Subject.isStopped sub = false →
  Subject.complete (Subject.next v sub)
  = Subject.mk (Subject.emitted sub ++ [v]) true.
Proof.
  destruct sub as [em stopped]; simpl. intros ->. reflexivity.
Qed.

Lemma fired_once_fire {A : Type} (v : A) (sub : Subject.t A) :
  fired_once sub → fired_once (Subject.complete (Subject.next v sub)).
Proof.
  intros [-> | [w ->]]; right.
  - by exists v.
  - by exists w.
Qed.

Lemma fire_all_stopped (pending : list (option R)) sub :
  Subject.isStopped sub = true → fire_all pending sub = sub.
Proof.
  revert sub; induction pending as [|r pending IH]; intros sub Hs; [done|].
  simpl. rewrite fire_stopped by done. by apply IH.
Qed.

Lemma fire_all_open (r : option R) (pending : list (option R)) sub :
  Subject.isStopped sub = false →
  fire_all (r :: pending) sub = Subject.mk (Subject.emitted sub ++ [r]) true.
Proof.
  intros Hs. simpl. rewrite fire_open by done. by apply fire_all_stopped.
Qed.

Lemma fired_once_fire_all (pending : list (option R)) sub :
  fired_once sub → fired_once (fire_all pending sub).
Proof.
  revert sub; induction pending as [|r pending IH]; intros sub Hs; [done|].
  simpl. apply IH. by apply fired_once_fire.
Qed.

(** *** The callbacks of the pending [close] subscriptions *)

Lemma fold_on_start_beforeClose (l : list (option R)) (s : MatDialogRef) :
  _beforeClose (fold_left (λ s dialogResult, on_start dialogResult s) l s)
  = fire_all l (_beforeClose s).
Proof.
  revert s; induction l as [|r l IH]; intros s; [done|].
  simpl. by rewrite IH.
Qed.

Lemma fold_on_start_calls (l : list (option R)) (s : MatDialogRef) :
  calls (fold_left (λ s dialogResult, on_start dialogResult s) l s)
  = calls s ++ replicate (length l) overlay_detachBackdrop.
Proof.
  revert s; induction l as [|r l IH]; intros s; simpl.
  - by rewrite app_nil_r.
  - rewrite IH. simpl. by rewrite <- app_assoc.
Qed.

Lemma event_beforeClose e s :
  _beforeClose (animationStateChanged e s)
  = if filter_start e then fire_all (closeSubscriptions s) (_beforeClose s)
    else _beforeClose s.
Proof.
  destruct (filter_start e) eqn:He.
  - rewrite event_start by done. by rewrite fold_on_start_beforeClose.
  - by apply event_beforeClose_other.
Qed.

(** The calls an animation event makes. *)
Lemma event_calls e s :
  calls (animationStateChanged e s)
  = calls s
    ++ (if closedSubscription s && filter_exit_done e
        then [overlay_dispose; locationChanges_unsubscribe] else [])
    ++ (if filter_start e
        then replicate (length (closeSubscriptions s)) overlay_detachBackdrop
        else []).
Proof.
  destruct (filter_start e) eqn:He.
  - destruct (filter_start_only e He) as [_ He2].
    rewrite event_start, fold_on_start_calls, He2, andb_false_r by done.
    done.
  - unfold animationStateChanged. rewrite He.
    repeat (case_match; simpl in * ); rewrite ?app_nil_r, <- ?app_assoc;
      try done; congruence.
Qed.

(** *** Counting calls *)

Lemma count_call_nil (c : Call) : count_call c [] = 0.
Proof. reflexivity. Qed.

Lemma count_call_replicate (c c' : Call) (n : nat) :
  count_call c (replicate n c') = if decide (c' = c) then n else 0.
Proof.
  unfold count_call. induction n as [|n IH]; simpl.
  - by case_decide.
  - rewrite filter_cons. case_decide; simpl; [|done]. by rewrite IH.
Qed.

Ltac count_calls :=
  rewrite ?count_call_app; unfold count_call;
  rewrite ?filter_cons, ?filter_nil; repeat case_decide; try done;
  simpl; try lia.

Lemma updatePosition_count (c : Call) position s :
  c ∈ lifecycle_calls →
  count_call c (calls (updatePosition position s)) = count_call c (calls s).
Proof.
  unfold lifecycle_calls. rewrite !elem_of_cons, elem_of_nil.
  intros [-> | [-> | [-> | [-> | []]]]];
    unfold updatePosition; repeat (case_match; simpl); count_calls.
Qed.

Lemma updateSize_count (c : Call) width height s :
  c ∈ lifecycle_calls →
  count_call c (calls (updateSize width height s)) = count_call c (calls s).
Proof.
  unfold lifecycle_calls. rewrite !elem_of_cons, elem_of_nil.
  intros [-> | [-> | [-> | [-> | []]]]]; unfold updateSize; simpl; count_calls.
Qed.

Lemma close_count_call (c : Call) (r : option R) s :
  count_call c (calls (close r s))
  = count_call c (calls s)
    + (if decide (container_startExitAnimation = c) then 1 else 0).
Proof.
  simpl. rewrite count_call_app. f_equal.
  unfold count_call. rewrite filter_cons, filter_nil. by case_decide.
Qed.

Lemma event_count_call (c : Call) e s :
  c ∈ lifecycle_calls →
  count_call c (calls (animationStateChanged e s))
  = count_call c (calls s)
    + (if closedSubscription s && filter_exit_done e
       then (if decide (c = overlay_dispose) then 1 else 0)
            + (if decide (c = locationChanges_unsubscribe) then 1 else 0)
       else 0)
    + (if filter_start e
       then (if decide (c = overlay_detachBackdrop)
             then length (closeSubscriptions s) else 0)
       else 0).
Proof.
  unfold lifecycle_calls. rewrite !elem_of_cons, elem_of_nil.
  rewrite event_calls, !count_call_app.
  intros [-> | [-> | [-> | [-> | []]]]];
    destruct (closedSubscription s && filter_exit_done e),
      (filter_start e);
    rewrite ?count_call_replicate; repeat case_decide; try done;
    count_calls.
Qed.

(** What an input adds to the number of calls of one kind. *)
Lemma step_count_call (c : Call) (i : Input) (s : MatDialogRef) :
  c ∈ lifecycle_calls →
  count_call c (calls (step i s))
  = count_call c (calls s)
    + (if invokes_close i s
       then (if decide (c = container_startExitAnimation) then 1 else 0)
       else 0)
    + (if closedSubscription s && is_exit_done i
       then (if decide (c = overlay_dispose) then 1 else 0)
            + (if decide (c = locationChanges_unsubscribe) then 1 else 0)
       else 0)
    + (if is_start i
       then (if decide (c = overlay_detachBackdrop)
             then length (closeSubscriptions s) else 0)
       else 0).
Proof.
  intros Hc.
  destruct i as [e|e| |r|position|w h|v|v];
    cbn [step invokes_close is_exit_done is_start];
    rewrite ?andb_false_r, ?Nat.add_0_r.
  - rewrite event_count_call by done. lia.
  - unfold keydownEvent. destruct (filter_escape e s); [|lia].
    rewrite close_count_call. repeat case_decide; congruence.
  - unfold locationChange.
    destruct (is_live _); simpl; [|lia].
    destruct (truthy_bool _); [|lia].
    rewrite close_count_call. repeat case_decide; congruence.
  - rewrite close_count_call. repeat case_decide; congruence.
  - by apply updatePosition_count.
  - by apply updateSize_count.
  - done.
  - done.
Qed.

(** What an input does to the pending [close] subscriptions. *)
Lemma step_closeSubscriptions (i : Input) (s : MatDialogRef) :
  length (closeSubscriptions (step i s))
  = (if is_start i then 0 else length (closeSubscriptions s))
    + (if invokes_close i s then 1 else 0).
Proof.
  destruct i as [e|e| |r|position|w h|v|v]; simpl;
    rewrite ?Nat.add_0_r; try done.
  - rewrite event_closeSubscriptions. by destruct (filter_start e).
  - unfold keydownEvent. destruct (filter_escape e s); simpl; [|lia].
    rewrite length_app. simpl. lia.
  - unfold locationChange.
    destruct (is_live _); simpl; [|lia].
    destruct (truthy_bool _); simpl; [|lia].
    rewrite length_app. simpl. lia.
  - rewrite length_app. simpl. lia.
  - unfold updatePosition. by repeat (case_match; simpl).
Qed.

(** *** What an input does, field by field *)

Lemma step_afterOpen (i : Input) (s : MatDialogRef) :
  _afterOpen (step i s)
  = if openSubscription s && is_enter_done i
    then Subject.complete (Subject.next () (_afterOpen s))
    else _afterOpen s.
Proof.
  destruct i as [e|e| |r|position|w h|v|v];
    cbn [step is_enter_done]; rewrite ?andb_false_r;
    try solve_other_inputs.
  apply event_afterOpen.
Qed.

Lemma step_afterClosed (i : Input) (s : MatDialogRef) :
  _afterClosed (step i s)
  = if closedSubscription s && is_exit_done i
    then Subject.complete (Subject.next (_result s) (_afterClosed s))
    else _afterClosed s.
Proof.
  destruct i as [e|e| |r|position|w h|v|v];
    cbn [step is_exit_done]; rewrite ?andb_false_r;
    try solve_other_inputs.
  apply event_afterClosed.
Qed.

Lemma step_beforeClose (i : Input) (s : MatDialogRef) :
  _beforeClose (step i s)
  = if is_start i then fire_all (closeSubscriptions s) (_beforeClose s)
    else _beforeClose s.
Proof.
  destruct i as [e|e| |r|position|w h|v|v];
    cbn [step is_start]; try solve_other_inputs.
  apply event_beforeClose.
Qed.

Lemma step_locationChanges (i : Input) (s : MatDialogRef) :
  _locationChanges (step i s)
  = if closedSubscription s && is_exit_done i
    then unsubscribe (_locationChanges s)
    else _locationChanges s.
Proof.
  destruct i as [e|e| |r|position|w h|v|v];
    cbn [step is_exit_done]; rewrite ?andb_false_r;
    try solve_other_inputs.
  apply event_locationChanges.
Qed.

Lemma step_containerInstance (i : Input) (s : MatDialogRef) :
  _containerInstance (step i s) = _containerInstance s.
Proof.
  destruct i as [e|e| |r|position|w h|v|v]; cbn [step];
    try solve_other_inputs.
  solve_event.
Qed.

(** *** Runs *)

Lemma lifecycle_startExit : container_startExitAnimation ∈ lifecycle_calls.
Proof. unfold lifecycle_calls. rewrite !elem_of_cons. auto. Qed.

Lemma lifecycle_detach : overlay_detachBackdrop ∈ lifecycle_calls.
Proof. unfold lifecycle_calls. rewrite !elem_of_cons. auto. Qed.

Lemma lifecycle_dispose : overlay_dispose ∈ lifecycle_calls.
Proof. unfold lifecycle_calls. rewrite !elem_of_cons. auto. Qed.

Lemma lifecycle_unsubscribe : locationChanges_unsubscribe ∈ lifecycle_calls.
Proof. unfold lifecycle_calls. rewrite !elem_of_cons. auto 6. Qed.

Lemma run_count_startExit (inputs : list Input) (s : MatDialogRef) :
  count_call container_startExitAnimation (calls (run inputs s))
  = count_call container_startExitAnimation (calls s) + close_count inputs s.
Proof.
  revert s; induction inputs as [|i inputs IH]; intros s; simpl; [lia|].
  unfold run in IH. rewrite IH.
  rewrite (step_count_call _ i s lifecycle_startExit).
  destruct (invokes_close i s), (closedSubscription s && is_exit_done i),
    (is_start i); repeat case_decide; try done; lia.
Qed.

Lemma no_close_count (inputs : list Input) (s : MatDialogRef) :
  no_close inputs s = true ↔ close_count inputs s = 0.
Proof.
  revert s; induction inputs as [|i inputs IH]; intros s; simpl; [done|].
  rewrite andb_true_iff, negb_true_iff, IH.
  destruct (invokes_close i s); simpl; split.
  - by intros [].
  - done.
  - by intros [_ ->].
  - done.
Qed.

(** Every pending [close] subscription stands for one start of the exit
    animation that has not been answered by a detached backdrop yet. *)
Lemma run_pending_balance (inputs : list Input) (s : MatDialogRef) :
  count_call overlay_detachBackdrop (calls (run inputs s))
  + length (closeSubscriptions (run inputs s))
  + count_call container_startExitAnimation (calls s)
  = count_call overlay_detachBackdrop (calls s)
    + length (closeSubscriptions s)
    + count_call container_startExitAnimation (calls (run inputs s)).
Proof.
  revert s; induction inputs as [|i inputs IH]; intros s; simpl; [lia|].
  unfold run in IH. specialize (IH (step i s)).
  pose proof (step_count_call _ i s lifecycle_startExit) as H1.
  pose proof (step_count_call _ i s lifecycle_detach) as H2.
  pose proof (step_closeSubscriptions i s) as H3.
  unfold run in *.
  destruct (invokes_close i s), (closedSubscription s && is_exit_done i),
    (is_start i); repeat case_decide; try done; lia.
Qed.

Lemma run_count_disposed (c : Call) (inputs : list Input) (b : bool)
    (s : MatDialogRef) :
  c = overlay_dispose ∨ c = locationChanges_unsubscribe →
  closed_state b s →
  count_call c (calls (run inputs s))
  = count_call c (calls s)
    + (if b then 0 else if existsb is_exit_done inputs then 1 else 0).
Proof.
  intros Hc. revert b s; induction inputs as [|i inputs IH]; intros b s Hb.
  - simpl. destruct b; lia.
  - unfold run in *. simpl.
    rewrite (IH _ _ (step_closed_state b i s Hb)).
    assert (Hin : c ∈ lifecycle_calls).
    { destruct Hc as [-> | ->];
        [apply lifecycle_dispose | apply lifecycle_unsubscribe]. }
    rewrite (step_count_call c i s Hin).
    assert (Hsub : closedSubscription s = negb b)
      by (destruct b; by destruct Hb).
    assert (Hstart : is_exit_done i = true → invokes_close i s = false
                                             ∧ is_start i = false).
    { destruct i as [e| | | | | | |]; try done. simpl. intros He.
      by destruct (filter_exit_done_only e He). }
    rewrite Hsub.
    destruct b, (is_exit_done i); simpl;
      try (destruct Hstart as [-> ->]; [done|]);
      destruct Hc as [-> | ->];
      destruct (invokes_close i s), (is_start i);
      repeat case_decide; try done; lia.
Qed.

Lemma run_cons (i : Input) (inputs : list Input) (s : MatDialogRef) :
  run (i :: inputs) s = run inputs (step i s).
Proof. reflexivity. Qed.

(** Without a [close], the closed notification carries the result stored
    before. *)
Lemma run_quiet_afterClosed (inputs : list Input) (s : MatDialogRef) :
  closed_state false s →
  no_close inputs s = true →
  _afterClosed (run inputs s)
  = if existsb is_exit_done inputs
    then Subject.mk [_result s] true else Subject.new.
Proof.
  revert s; induction inputs as [|i inputs IH]; intros s [Hsub Hnew].
  - done.
  - cbn [no_close existsb]. rewrite run_cons.
    rewrite andb_true_iff, negb_true_iff. intros [Hi Hrest].
    pose proof (step_closed_state false i s (conj Hsub Hnew)) as Hstep.
    destruct (is_exit_done i) eqn:Hexit; simpl in *.
    + destruct (run_afterClosed_fired inputs (step i s)) as [_ H];
        [by destruct Hstep|].
      by rewrite H, step_afterClosed, Hsub, Hexit, Hnew.
    + rewrite IH by done. by destruct (step_quiet i s Hi) as [-> _].
Qed.

(** A channel that has completed stays as it is. *)
Lemma run_stopped (inputs : list Input) (s : MatDialogRef) :
  (Subject.isStopped (_afterOpen s) = true →
   _afterOpen (run inputs s) = _afterOpen s) ∧
  (Subject.isStopped (_afterClosed s) = true →
   _afterClosed (run inputs s) = _afterClosed s) ∧
  (Subject.isStopped (_beforeClose s) = true →
   _beforeClose (run inputs s) = _beforeClose s).
Proof.
  revert s; induction inputs as [|i inputs IH]; intros s; [done|].
  rewrite run_cons.
  destruct (IH (step i s)) as (IH1 & IH2 & IH3).
  split; [|split]; intros Hs.
  - assert (Heq : _afterOpen (step i s) = _afterOpen s).
    { rewrite step_afterOpen. case_match; [|done]. by apply fire_stopped. }
    rewrite IH1; congruence.
  - assert (Heq : _afterClosed (step i s) = _afterClosed s).
    { rewrite step_afterClosed. case_match; [|done]. by apply fire_stopped. }
    rewrite IH2; congruence.
  - assert (Heq : _beforeClose (step i s) = _beforeClose s).
    { rewrite step_beforeClose. case_match; [|done].
      by apply fire_all_stopped. }
    rewrite IH3; congruence.
Qed.

(** With no [close] pending and none run, [_beforeClose] is left alone. *)
Lemma run_quiet_no_pending (inputs : list Input) (s : MatDialogRef) :
  closeSubscriptions s = [] →
  no_close inputs s = true →
  _beforeClose (run inputs s) = _beforeClose s ∧
  closeSubscriptions (run inputs s) = [].
Proof.
  revert s; induction inputs as [|i inputs IH]; intros s Hnone; [done|].
  cbn [no_close]. rewrite run_cons.
  rewrite andb_true_iff, negb_true_iff. intros [Hi Hrest].
  assert (Hnone' : closeSubscriptions (step i s) = []).
  { apply length_zero_iff_nil. rewrite step_closeSubscriptions, Hi, Hnone.
    by destruct (is_start i). }
  destruct (IH _ Hnone' Hrest) as [IH1 IH2].
  split; [|done].
  rewrite IH1, step_beforeClose, Hnone. by destruct (is_start i).
Qed.

(** With one [close] pending and none run, [_beforeClose] emits its result at
    the first [start] event. *)
Lemma run_quiet_one_pending (inputs : list Input) (r : option R)
    (s : MatDialogRef) :
  closeSubscriptions s = [r] →
  _beforeClose s = Subject.new →
  no_close inputs s = true →
  _beforeClose (run inputs s)
  = if existsb is_start inputs then Subject.mk [r] true else Subject.new.
Proof.
  revert s; induction inputs as [|i inputs IH]; intros s Hone Hnew; [done|].
  cbn [no_close existsb]. rewrite run_cons.
  rewrite andb_true_iff, negb_true_iff. intros [Hi Hrest].
  destruct (is_start i) eqn:Hstart; simpl.
  - destruct (run_stopped inputs (step i s)) as (_ & _ & H).
    rewrite H; by rewrite step_beforeClose, Hstart, Hone, Hnew.
  - destruct (step_quiet i s Hi) as [_ Hq].
    destruct (Hq Hstart) as [Hb Hc].
    apply IH; [congruence | congruence | done].
Qed.

(** An input that is not a [start] event keeps the [close] calls that wait,
    and adds the one it runs. *)
Lemma step_no_start (i : Input) (s : MatDialogRef) :
  is_start i = false →
  ∃ later, closeSubscriptions (step i s) = closeSubscriptions s ++ later.
Proof.
  destruct i as [e|e| |r|position|w h|v|v]; cbn [step is_start]; intros Hi.
  - exists []. by rewrite event_closeSubscriptions, Hi, app_nil_r.
  - unfold keydownEvent. destruct (filter_escape e s).
    + by exists [None].
    + exists []. by rewrite app_nil_r.
  - unfold locationChange.
    destruct (is_live (_locationChanges s)),
      (truthy_bool
         (config_closeOnNavigation (_config (_containerInstance s))));
      (by exists [None]) || (exists []; by rewrite app_nil_r).
  - by exists [r].
  - exists []. rewrite app_nil_r.
    unfold updatePosition. by repeat (case_match; simpl).
  - exists []. by rewrite app_nil_r.
  - exists []. by rewrite app_nil_r.
  - exists []. by rewrite app_nil_r.
Qed.

(** Until a [start] event comes [_beforeClose] is left alone and the [close]
    calls wait, in the order in which they were made. *)
Lemma run_no_start (inputs : list Input) (s : MatDialogRef) :
  existsb is_start inputs = false →
  _beforeClose (run inputs s) = _beforeClose s ∧
  ∃ later, closeSubscriptions (run inputs s) = closeSubscriptions s ++ later.
Proof.
  revert s; induction inputs as [|i inputs IH]; intros s.
  - intros _. split; [done|]. exists []. by rewrite app_nil_r.
  - cbn [existsb]. rewrite run_cons, orb_false_iff. intros [Hi Hrest].
    destruct (IH (step i s) Hrest) as (IH1 & later & IH2).
    destruct (step_no_start i s Hi) as (first & Hfirst).
    split.
    + by rewrite IH1, step_beforeClose, Hi.
    + exists (first ++ later). by rewrite IH2, Hfirst, <- app_assoc.
Qed.

(** C2, as the code has it.  [close(r)] stores [r], subscribes once to the
    animation stream, after the subscriptions that wait there already, and
    then starts the exit animation of the container.  The subscription waits
    for the first event whose phase is [start], whatever its target state:
    until then, whatever else happens, [_beforeClose] is left alone.  On that
    event the handle detaches the backdrop, once for each [close] that waits,
    and makes no other call, so it does not dispose the overlay; no [close]
    waits any more.  When [close(r)] was called with [_beforeClose] still
    open and no earlier [close] waiting, what [_beforeClose] emits then is
    [r], also if [close] was called again in between, and it completes. *)
Theorem close_then_start (s : MatDialogRef) (r : option R) :
  let s1 := close r s in
  _result s1 = r ∧
  closeSubscriptions s1 = closeSubscriptions s ++ [r] ∧
  calls s1 = calls s ++ [container_startExitAnimation] ∧
  ∀ (between : list Input) (event : AnimationEvent),
    existsb is_start between = false →
    phaseName event = "start" →
    let s2 := run between s1 in
    let s3 := animationStateChanged event s2 in
    _beforeClose s2 = _beforeClose s ∧
    (∃ later,
       closeSubscriptions s2 = closeSubscriptions s ++ r :: later ∧
       calls s3
       = calls s2
         ++ replicate (length (closeSubscriptions s) + S (length later))
              overlay_detachBackdrop) ∧
    closeSubscriptions s3 = [] ∧
    (closeSubscriptions s = [] →
     Subject.isStopped (_beforeClose s) = false →
     _beforeClose s3
     = Subject.mk (Subject.emitted (_beforeClose s) ++ [r]) true).
Proof.
  intros s1. split; [done|]. split; [done|]. split; [done|].
  intros between event Hnostart Hp s2 s3.
  assert (He : filter_start event = true) by (by apply filter_start_spec).
  destruct (run_no_start between s1 Hnostart) as (Hb & later & Hc).
  fold s2 in Hb, Hc.
  change (closeSubscriptions s1) with (closeSubscriptions s ++ [r]) in Hc.
  rewrite <- app_assoc in Hc. simpl in Hc.
  split; [exact Hb|]. split; [|split].
  - exists later. split; [exact Hc|].
    unfold s3. rewrite event_start, fold_on_start_calls, Hc by done.
    by rewrite length_app.
  - unfold s3. by rewrite event_closeSubscriptions, He.
  - intros Hnone Hopen. unfold s3.
    rewrite event_beforeClose, He, Hc, Hnone, Hb. simpl app.
    by apply fire_all_open.
Qed.

(** C3, as the code has it.  Every [close(r)] stores [r], whatever was stored
    before and whatever state the handle is in.  From then on, as long as
    nothing runs [close] again, the stored result stays [r].  If the closed
    notification had not fired when [close] was called, [_afterClosed] emits
    [r], and only [r], when the [done]/[exit] event comes; if it had fired,
    [_afterClosed] stays as it was. *)
Theorem result_last_close_wins (s0 : MatDialogRef) (r : option R) :
  _result (close r s0) = r ∧
  ∀ after : list Input,
    no_close after (close r s0) = true →
    let s := run after (close r s0) in
    _result s = r ∧
    (reachable s0 → closedSubscription s0 = true →
     _afterClosed s
     = if existsb is_exit_done after
       then Subject.mk [r] true else Subject.new) ∧
    (closedSubscription s0 = false → _afterClosed s = _afterClosed s0).
Proof.
  split; [done|]. intros after Hquiet s.
  split; [by apply run_quiet_result|]. split.
  - intros (container & location & id_arg & uniqueId & inputs & ->) Hsub.
    pose proof (run_closed_state inputs false _
                  (constructor_closed_state container location id_arg
                     uniqueId)) as H.
    simpl in H. destruct (existsb is_exit_done inputs); simpl in H.
    { destruct H as [H _]. congruence. }
    unfold s. by rewrite run_quiet_afterClosed.
  - intros Hsub. unfold s.
    by destruct (run_afterClosed_fired after (close r s0) Hsub) as [_ ->].
Qed.

Lemma run_containerInstance (inputs : list Input) (s : MatDialogRef) :
  _containerInstance (run inputs s) = _containerInstance s ∧
  id (run inputs s) = id s.
Proof.
  revert s; induction inputs as [|i inputs IH]; intros s; [done|].
  rewrite run_cons. destruct (IH (step i s)) as [-> ->].
  by rewrite step_containerInstance, step_id.
Qed.

Lemma run_locationChanges (inputs : list Input) (b : bool)
    (initial : SubscriptionLike) (s : MatDialogRef) :
  closed_state b s →
  _locationChanges s = (if b then unsubscribe initial else initial) →
  _locationChanges (run inputs s)
  = if b || existsb is_exit_done inputs then unsubscribe initial else initial.
Proof.
  revert b s; induction inputs as [|i inputs IH]; intros b s Hb Hloc.
  - simpl. by rewrite orb_false_r.
  - cbn [existsb]. rewrite run_cons, orb_assoc.
    apply IH; [by apply step_closed_state|].
    rewrite step_locationChanges, Hloc.
    assert (Hsub : closedSubscription s = negb b)
      by (destruct b; by destruct Hb).
    rewrite Hsub. by destruct b, (is_exit_done i).
Qed.

(** X1.  The container of a handle knows the handle's id: the constructor
    writes the id, the default one or the one passed, to [_id] of the
    container, and nothing that happens to the handle afterwards changes the
    id, the container's [_id] or the configuration the handle reads. *)
Theorem container_knows_id container location id_arg uniqueId
    (inputs : list Input) :
  let s := run inputs (constructor container location id_arg uniqueId).1 in
  _id (_containerInstance s) = id s ∧
  _config (_containerInstance s) = _config container ∧
  id s = match id_arg with
         | Some given => given
         | None => "mat-dialog-" +:+ pretty uniqueId
         end.
Proof.
  intros s. unfold s.
  destruct (run_containerInstance inputs
              (constructor container location id_arg uniqueId).1) as [-> ->].
  unfold constructor. by destruct id_arg.
Qed.

(** X4.  A keydown event closes the dialog exactly when its key code is
    [ESCAPE] and [disableClose] is not [true]: a [disableClose] that is
    [undefined] lets the escape key close the dialog, as [false] does. *)
Theorem escape_closes_unless_disabled (event : KeyboardEvent)
    (s : MatDialogRef) :
  (keyCode event = ESCAPE ∧ disableClose s ≠ Some true →
   keydownEvent event s = close None s) ∧
  (keydownEvent event s ≠ s ↔
   keyCode event = ESCAPE ∧ disableClose s ≠ Some true).
Proof.
  assert (Hclose : close None s ≠ s).
  { intros H. apply (f_equal calls) in H. apply (f_equal length) in H.
    simpl in H. rewrite length_app in H. simpl in H. lia. }
  unfold keydownEvent, filter_escape.
  destruct (Z.eqb_spec (keyCode event) ESCAPE) as [Hk|Hk];
    destruct (disableClose s) as [[]|]; simpl; split;
    try (intros [? ?]; done); try (split; [done | intros [? ?]; done]);
    try done; split; try done; by intros _.
Qed.

(** X5.  A change of location closes the dialog exactly when a [Location]
    was passed to the constructor, the closed notification has not fired yet
    (it unsubscribes from the location), and the configuration says
    [closeOnNavigation]; then it runs [close()] with no result.  In every
    other case it leaves the handle as it is. *)
Theorem location_change_closes container location id_arg uniqueId
    (inputs : list Input) :
  let s := run inputs (constructor container location id_arg uniqueId).1 in
  locationChange s
  = if location && negb (existsb is_exit_done inputs)
       && truthy_bool (config_closeOnNavigation (_config container))
    then close None s else s.
Proof.
  intros s. unfold locationChange.
  assert (Hloc : _locationChanges s
                 = if existsb is_exit_done inputs
                   then unsubscribe (if location
                                     then location_subscription false
                                     else Subscription_EMPTY)
                   else (if location then location_subscription false
                         else Subscription_EMPTY)).
  { unfold s. apply (run_locationChanges inputs false).
    - apply constructor_closed_state.
    - unfold constructor. by destruct id_arg. }
  assert (Hcfg : _config (_containerInstance s) = _config container).
  { unfold s.
    destruct (run_containerInstance inputs
                (constructor container location id_arg uniqueId).1) as [-> _].
    unfold constructor. by destruct id_arg. }
  rewrite Hloc, Hcfg.
  by destruct location, (existsb is_exit_done inputs).
Qed.

(** X6.  Each of the three notification subjects of a handle emits at most
    once: whatever happens to the handle, [_afterOpen], [_afterClosed] and
    [_beforeClose] have either not emitted and not completed, or emitted one
    value and completed. *)
Theorem channels_fire_at_most_once container location id_arg uniqueId
    (inputs : list Input) :
  let s := run inputs (constructor container location id_arg uniqueId).1 in
  fired_once (_afterOpen s) ∧ fired_once (_afterClosed s) ∧
  fired_once (_beforeClose s).
Proof.
  intros s. unfold s.
  assert (Hinit : ∀ s0 : MatDialogRef,
            fired_once (_afterOpen s0) ∧ fired_once (_afterClosed s0) ∧
            fired_once (_beforeClose s0) →
            fired_once (_afterOpen (run inputs s0)) ∧
            fired_once (_afterClosed (run inputs s0)) ∧
            fired_once (_beforeClose (run inputs s0))).
  { induction inputs as [|i inputs IH]; intros s0 (H1 & H2 & H3); [done|].
    rewrite run_cons. apply IH.
    rewrite step_afterOpen, step_afterClosed, step_beforeClose.
    repeat split; case_match;
      auto using fired_once_fire, fired_once_fire_all. }
  apply Hinit. unfold constructor.
  destruct id_arg; simpl; repeat split; by left.
Qed.

(** X7.  A notification subject that has completed never changes again:
    whatever happens to the handle, in whatever state, it emits nothing
    more. *)
Theorem completed_channel_never_changes (inputs : list Input)
    (s : MatDialogRef) :
  (Subject.isStopped (_afterOpen s) = true →
   _afterOpen (run inputs s) = _afterOpen s) ∧
  (Subject.isStopped (_afterClosed s) = true →
   _afterClosed (run inputs s) = _afterClosed s) ∧
  (Subject.isStopped (_beforeClose s) = true →
   _beforeClose (run inputs s) = _beforeClose s).
Proof. apply run_stopped. Qed.

(** X8.  A [start] animation event runs the callbacks of all the [close]
    calls that wait for it, in the order of the calls: the backdrop is
    detached once for each of them, but only the result of the first is
    emitted on [_beforeClose], and none if [_beforeClose] had completed.
    Afterwards no [close] is waiting.  The event touches neither the stored
    result nor the other two subjects. *)
Theorem start_runs_pending_closes (event : AnimationEvent)
    (s : MatDialogRef) :
  phaseName event = "start" →
  let s' := animationStateChanged event s in
  closeSubscriptions s' = [] ∧
  calls s'
  = calls s ++ replicate (length (closeSubscriptions s)) overlay_detachBackdrop ∧
  _beforeClose s'
  = match closeSubscriptions s with
    | [] => _beforeClose s
    | first :: _ =>
        if Subject.isStopped (_beforeClose s) then _beforeClose s
        else Subject.mk (Subject.emitted (_beforeClose s) ++ [first]) true
    end ∧
  _result s' = _result s ∧
  _afterOpen s' = _afterOpen s ∧
  _afterClosed s' = _afterClosed s.
Proof.
  intros Hp s'. unfold s'.
  assert (He : filter_start event = true) by (by apply filter_start_spec).
  destruct (filter_start_only event He) as [He1 He2].
  rewrite event_closeSubscriptions, event_calls, event_beforeClose,
    event_result, event_afterOpen, event_afterClosed, He, He1, He2,
    !andb_false_r.
  repeat split.
  destruct (closeSubscriptions s) as [|first rest]; [done|].
  destruct (Subject.isStopped (_beforeClose s)) eqn:Hs.
  - by apply fire_all_stopped.
  - by apply fire_all_open.
Qed.

(** X9.  Every [close] that runs, called directly or by the escape key or a
    change of location, starts the exit animation of the container again:
    over any inputs the number of [_startExitAnimation()] calls grows by the
    number of [close] runs, and it does not grow when none runs. *)
Theorem exit_animation_started_per_close (inputs : list Input)
    (s : MatDialogRef) :
  count_call container_startExitAnimation (calls (run inputs s))
  = count_call container_startExitAnimation (calls s) + close_count inputs s ∧
  (no_close inputs s = true ↔ close_count inputs s = 0).
Proof. split; [apply run_count_startExit | apply no_close_count]. Qed.

(** X10.  The overlay is disposed, and the location unsubscribed from,
    exactly once in the life of a handle if a [done]/[exit] animation event
    comes, and never otherwise: no method and no other event disposes the
    overlay, and a second [done]/[exit] event does not dispose it again. *)
Theorem overlay_disposed_once container location id_arg uniqueId
    (inputs : list Input) :
  let s := run inputs (constructor container location id_arg uniqueId).1 in
  count_call overlay_dispose (calls s)
  = (if existsb is_exit_done inputs then 1 else 0) ∧
  count_call locationChanges_unsubscribe (calls s)
  = (if existsb is_exit_done inputs then 1 else 0).
Proof.
  intros s. unfold s.
  pose proof (constructor_closed_state container location id_arg uniqueId)
    as H0.
  rewrite !(run_count_disposed _ inputs false _) by (auto || done).
  unfold constructor. by destruct id_arg.
Qed.

(** X11.  When [close(r)] is the only [close] that runs in the life of a
    handle, and it runs before the closed notification, the two closing
    notifications agree: [_beforeClose] emits [r] at the first [start] event
    after the call and [_afterClosed] emits [r] at the first [done]/[exit]
    event after it, and neither emits anything else. *)
Theorem single_close_agreement container location id_arg uniqueId
    (before after : list Input) (r : option R) :
  let s0 := (constructor container location id_arg uniqueId).1 in
  no_close before s0 = true →
  existsb is_exit_done before = false →
  no_close after (close r (run before s0)) = true →
  let s := run after (close r (run before s0)) in
  _beforeClose s
  = (if existsb is_start after then Subject.mk [r] true else Subject.new) ∧
  _afterClosed s
  = (if existsb is_exit_done after then Subject.mk [r] true else Subject.new).
Proof.
  intros s0 Hbefore Hnotclosed Hafter s.
  assert (Hfresh : closeSubscriptions s0 = [] ∧ _beforeClose s0 = Subject.new).
  { unfold s0, constructor. by destruct id_arg. }
  destruct Hfresh as [Hnone Hnew].
  destruct (run_quiet_no_pending before s0 Hnone Hbefore) as [Hb Hc].
  pose proof (run_closed_state before false s0
                (constructor_closed_state container location id_arg uniqueId))
    as Hclosed.
  rewrite Hnotclosed in Hclosed. simpl in Hclosed.
  split.
  - apply run_quiet_one_pending; [|simpl; congruence|done].
    simpl. by rewrite Hc.
  - unfold s. by rewrite run_quiet_afterClosed.
Qed.

(** X12.  If no [close] runs, nothing of the closing happens: the stored
    result stays [undefined], [_beforeClose] neither emits nor completes,
    the exit animation is not started and the backdrop is not detached,
    whatever animation events come.  A [done]/[exit] event still fires the
    closed notification, which then carries [undefined]. *)
Theorem without_close_nothing_closes container location id_arg uniqueId
    (inputs : list Input) :
  let s0 := (constructor container location id_arg uniqueId).1 in
  no_close inputs s0 = true →
  let s := run inputs s0 in
  _result s = None ∧
  _beforeClose s = Subject.new ∧
  count_call container_startExitAnimation (calls s) = 0 ∧
  count_call overlay_detachBackdrop (calls s) = 0 ∧
  _afterClosed s
  = (if existsb is_exit_done inputs then Subject.mk [None] true
     else Subject.new).
Proof.
  intros s0 Hquiet s.
  assert (Hfresh : closeSubscriptions s0 = [] ∧ _beforeClose s0 = Subject.new
                   ∧ _result s0 = None ∧ calls s0 = []).
  { unfold s0, constructor. by destruct id_arg. }
  destruct Hfresh as (Hnone & Hnew & Hres & Hcalls).
  destruct (run_quiet_no_pending inputs s0 Hnone Hquiet) as [Hb Hc].
  pose proof (run_count_startExit inputs s0) as Hstart.
  pose proof (run_pending_balance inputs s0) as Hbal.
  apply no_close_count in Hquiet as Hcount.
  fold s in Hb, Hc, Hstart, Hbal.
  rewrite Hcalls, Hcount, count_call_nil in Hstart.
  rewrite Hc, Hnone, Hcalls, !count_call_nil in Hbal.
  simpl in Hstart, Hbal.
  repeat split.
  - unfold s. by rewrite run_quiet_result.
  - congruence.
  - done.
  - lia.
  - unfold s. rewrite run_quiet_afterClosed, Hres; [done| |done].
    apply constructor_closed_state.
Qed.

(** X13.  The detached backdrops and the waiting [close] calls add up to the
    starts of the exit animation: at any time in the life of a handle, the
    number of [detachBackdrop()] calls made plus the number of [close] calls
    still waiting for a [start] event is the number of
    [_startExitAnimation()] calls made. *)
Theorem closes_detach_or_wait container location id_arg uniqueId
    (inputs : list Input) :
  let s := run inputs (constructor container location id_arg uniqueId).1 in
  count_call overlay_detachBackdrop (calls s) + length (closeSubscriptions s)
  = count_call container_startExitAnimation (calls s).
Proof.
  intros s.
  pose proof (run_pending_balance inputs
                (constructor container location id_arg uniqueId).1) as H.
  fold s in H.
  assert (Hfresh :
    closeSubscriptions (constructor container location id_arg uniqueId).1 = []
    ∧ calls (constructor container location id_arg uniqueId).1 = []).
  { unfold constructor. by destruct id_arg. }
  destruct Hfresh as [Hnone Hcalls].
  rewrite Hnone, Hcalls, !count_call_nil in H. simpl in H. lia.
Qed.

(** X14.  [updatePosition] and [updateSize] talk to the position strategy and
    ask the overlay to recompute its position, and that is all: they change
    no field of the handle, leave the subscriptions as they are, and make
    none of the calls of the dialog's life (no exit animation, no detached
    backdrop, no disposal, no unsubscription), also on a handle that has
    closed. *)
Theorem position_and_size_leave_life_alone (i : Input) (s : MatDialogRef) :
  (∃ position, i = UpdatePosition position) ∨
  (∃ width height, i = UpdateSize width height) →
  let s' := step i s in
  id s' = id s ∧ componentInstance s' = componentInstance s ∧
  disableClose s' = disableClose s ∧ _result s' = _result s ∧
  _afterOpen s' = _afterOpen s ∧ _afterClosed s' = _afterClosed s ∧
  _beforeClose s' = _beforeClose s ∧
  _locationChanges s' = _locationChanges s ∧
  _containerInstance s' = _containerInstance s ∧
  openSubscription s' = openSubscription s ∧
  closedSubscription s' = closedSubscription s ∧
  closeSubscriptions s' = closeSubscriptions s ∧
  (∃ made, calls s' = calls s ++ made ∧
           ∀ c, c ∈ made → c ∉ lifecycle_calls) ∧
  ∀ c, c ∈ lifecycle_calls → count_call c (calls s') = count_call c (calls s).
Proof.
  assert (Hnot : ∀ made : list Call,
            Forall (λ c, match c with
                         | container_startExitAnimation
                         | overlay_detachBackdrop
                         | overlay_dispose
                         | locationChanges_unsubscribe => False
                         | _ => True
                         end) made →
            ∀ c, c ∈ made → c ∉ lifecycle_calls).
  { intros made Hmade c Hc.
    rewrite Forall_forall in Hmade. specialize (Hmade c Hc).
    unfold lifecycle_calls. rewrite !not_elem_of_cons.
    repeat split; try apply not_elem_of_nil; by intros ->. }
  intros [[position ->] | (width & height & ->)] s'; unfold s';
    cbn [step].
  - repeat split; try (intros c Hc; by apply updatePosition_count);
      try (unfold updatePosition; by repeat (case_match; simpl)).
    destruct (updatePosition_calls position s)
      as (horizontal & vertical & Hcalls & Hl & Hr & Hch & Ht & Hb & Hcv).
    exists [horizontal; vertical; overlay_updatePosition].
    split; [exact Hcalls|]. apply Hnot.
    repeat constructor.
    + destruct (given_or_not (position ≫= DialogPosition.left)) as [H|H];
        [by rewrite (Hl H)|].
      destruct (given_or_not (position ≫= DialogPosition.right)) as [H'|H'];
        [by rewrite (Hr H H') | by rewrite (Hch H H')].
    + destruct (given_or_not (position ≫= DialogPosition.top)) as [H|H];
        [by rewrite (Ht H)|].
      destruct (given_or_not (position ≫= DialogPosition.bottom)) as [H'|H'];
        [by rewrite (Hb H H') | by rewrite (Hcv H H')].
  - repeat split; try (intros c Hc; by apply updateSize_count).
    exists [strategy_width (default "auto" width);
            strategy_height (default "auto" height); overlay_updatePosition].
    split.
    + unfold updateSize; simpl. by rewrite <- !app_assoc.
    + apply Hnot. by repeat constructor.
Qed.

(** ** Further properties of the identifiers *)

(** X2.  The counter counts the default ids and nothing else: after any run
    of the process [uniqueId] is the number of handles constructed without an
    id, there is one handle for each constructor call, and a handle
    constructed with an id has that id; a constructor call with an id, and
    anything that happens to a handle, leave the counter alone.  (As far as a
    JavaScript number counts, up to [2^53].) *)
Theorem counter_counts_defaults (ops : list Op) :
  (N.of_nat (defaults (id_args ops)) ≤ two_53)%N →
  let p := exec ops initial_process in
  uniqueId p = N.of_nat (defaults (id_args ops)) ∧
  length (handles p) = length (id_args ops) ∧
  ∀ i h given,
    handles p !! i = Some h → id_args ops !! i = Some (Some given) →
    id h = given.
Proof.
  intros Hk p. destruct (exec_from_initial ops) as (Hu & Hl & Hid).
  fold p in Hu, Hl, Hid.
  split; [by rewrite Hu, counter_after_exact|]. split; [done|].
  intros i h given Hh Ha. exact (Hid i h (Some given) Hh Ha).
Qed.

(** X3.  Ids are unique among the default ids only.  An id passed to the
    constructor is taken as it is and does not move the counter, so in any
    state of the process a handle constructed with the id that the counter
    is about to give, followed by a handle constructed without an id, makes
    two handles with the same id. *)
Theorem passed_id_can_collide (p : Process)
    (container1 container2 : MatDialogContainer) (location1 location2 : bool) :
  let taken := "mat-dialog-" +:+ pretty (uniqueId p) in
  let p1 := (new_MatDialogRef container1 location1 (Some taken) p).1 in
  let p2 := (new_MatDialogRef container2 location2 None p1).1 in
  uniqueId p1 = uniqueId p ∧
  ∃ h1 h2,
    handles p2 !! (new_MatDialogRef container1 location1 (Some taken) p).2
    = Some h1 ∧
    handles p2 !! (new_MatDialogRef container2 location2 None p1).2
    = Some h2 ∧
    (new_MatDialogRef container1 location1 (Some taken) p).2
    ≠ (new_MatDialogRef container2 location2 None p1).2 ∧
    id h1 = id h2.
Proof.
  intros taken p1 p2. split; [done|].
  unfold p2, p1, new_MatDialogRef, constructor. simpl.
  eexists _, _. split; [|split; [|split]].
  - rewrite lookup_app_l by (rewrite length_app; simpl; lia).
    by rewrite list_lookup_middle.
  - by rewrite list_lookup_middle.
  - rewrite length_app. simpl. lia.
  - done.
Qed.

End MatDialogRef.

(** ** The properties at work

    A dialog with no component type of interest ([T := unit]) whose result is
    a string ([R := string]); the escape key has code 27. *)

(** The life of a dialog: it opens, [close('ok')] is called, the exit
    animation starts and finishes. *)
Example dialog_life :
  let s := run (T:=unit) 27
             [AnimationStateChanged enter_done; Close (Some "ok");
              AnimationStateChanged exit_start;
              AnimationStateChanged exit_done] example_handle in
  id s = "mat-dialog-0" ∧
  _afterOpen s = Subject.mk [()] true ∧
  _beforeClose s = Subject.mk [Some "ok"] true ∧
  _afterClosed s = Subject.mk [Some "ok"] true ∧
  componentInstance s = js_null ∧
  calls s = [container_startExitAnimation; overlay_detachBackdrop;
             overlay_dispose; locationChanges_unsubscribe].
Proof. repeat split. Qed.

(** The number in a default id is written in decimal. *)
Example eleventh_default_id :
  (constructor (T:=unit) (R:=string) example_container false None 10).1.(id)
  = "mat-dialog-10".
Proof. reflexivity. Qed.

(** C1 as it is written fails: the first handle with a default id is called
    ["mat-dialog-0"], which is not ["dialog-0"] nor ["dialog-<n>"] for any
    [n]. *)
Lemma first_default_id_is_not_dialog_0 :
  ∃ h : MatDialogRef (T:=unit) (R:=string),
    handles (exec 27 [op_new example_container false None] initial_process)
      !! 0 = Some h ∧
    id h = "mat-dialog-0" ∧
    id h ≠ "dialog-0" ∧
    ∀ n : N, id h ≠ "dialog-" +:+ pretty n.
Proof.
  eexists. split; [reflexivity|]. split; [reflexivity|].
  split; [discriminate|]. intros n. simpl. discriminate.
Qed.

Lemma default_id_format_witness :
  ∃ h : MatDialogRef (T:=unit) (R:=string),
    handles (exec 27 example_ops initial_process) !! 3 = Some h ∧
    id h = "mat-dialog-2".
Proof.
  eexists. split; [reflexivity|].
  destruct (default_id_format (T:=unit) (R:=string) 27 example_ops 3 _
              eq_refl eq_refl) as (_ & H & _).
  - vm_compute. discriminate.
  - exact H.
Defined.

(** C2 as it is written fails twice.  The subscription made by [close] is
    not for the exit animation only: a [start] event of the enter animation
    makes the handle emit the result, complete [_beforeClose] and detach the
    backdrop.  And of two [close] calls waiting for the [start] event, the
    second does not get its result emitted. *)
Lemma close_fires_on_enter_start :
  let s := animationStateChanged enter_start
             (close (Some "ok") (example_handle (T:=unit))) in
  toState enter_start ≠ "exit" ∧
  _beforeClose s = Subject.mk [Some "ok"] true ∧
  calls s = [container_startExitAnimation; overlay_detachBackdrop] ∧
  _beforeClose
    (animationStateChanged exit_start
       (close (Some "b") (close (Some "a") (example_handle (T:=unit)))))
  = Subject.mk [Some "a"] true.
Proof. repeat split. discriminate. Qed.

Lemma close_then_start_witness :
  let s2 := run (T:=unit) 27 [Close (Some "b")]
              (close (Some "a") example_handle) in
  let s3 := animationStateChanged enter_start s2 in
  _beforeClose s2 = Subject.new ∧
  closeSubscriptions s3 = [] ∧
  _beforeClose s3 = Subject.mk [Some "a"] true.
Proof.
  intros s2 s3.
  destruct (close_then_start (T:=unit) 27 example_handle (Some "a"))
    as (_ & _ & _ & H).
  destruct (H [Close (Some "b")] enter_start eq_refl eq_refl)
    as (H1 & _ & H2 & H3).
  split; [exact H1|]. split; [exact H2|].
  exact (H3 eq_refl eq_refl).
Defined.

(** C3 as it is written fails: a second [close] before the closed
    notification overwrites the stored result, and it is the second result
    that [_afterClosed] emits. *)
Lemma second_close_overwrites_result :
  let s1 := close (Some "a") (example_handle (T:=unit)) in
  let s2 := close (Some "b") s1 in
  _result s1 = Some "a" ∧
  _afterClosed s2 = Subject.new ∧
  _result s2 = Some "b" ∧
  _afterClosed (animationStateChanged exit_done s2)
  = Subject.mk [Some "b"] true.
Proof. repeat split. Qed.

Lemma result_last_close_wins_witness :
  let s := run (T:=unit) 27
             [UpdatePosition None; AnimationStateChanged exit_start;
              KeydownEvent {| keyCode := 13 |};
              AnimationStateChanged exit_done]
             (close (Some "ok") example_handle) in
  _result s = Some "ok" ∧ _afterClosed s = Subject.mk [Some "ok"] true.
Proof.
  intros s.
  assert (Hr : reachable 27 (example_handle (T:=unit) (R:=string))).
  { exists example_container, true, None, 0%N, []. reflexivity. }
  destruct (result_last_close_wins (T:=unit) (R:=string) 27 example_handle
              (Some "ok")) as [_ H].
  destruct (H [UpdatePosition None; AnimationStateChanged exit_start;
               KeydownEvent {| keyCode := 13 |};
               AnimationStateChanged exit_done] eq_refl) as (H1 & H2 & _).
  split; [exact H1 | exact (H2 Hr eq_refl)].
Defined.

Lemma default_ids_distinct_increasing_witness :
  ∃ h0 h3 h0' : MatDialogRef (T:=unit) (R:=string),
    handles (exec 27 example_ops initial_process) !! 0 = Some h0 ∧
    handles (exec 27 example_ops initial_process) !! 3 = Some h3 ∧
    handles (exec 27 [op_input 0 (Close (Some "late"));
                      op_new example_container false None]
               (exec 27 example_ops initial_process)) !! 0 = Some h0' ∧
    id h0 ≠ id h3 ∧ id h0' = id h0.
Proof.
  destruct (default_ids_distinct_increasing (T:=unit) (R:=string) 27
              example_ops
              [op_input 0 (Close (Some "late"));
               op_new example_container false None]
              0 3 _ _ eq_refl eq_refl eq_refl eq_refl)
    as (Hne & _ & h0' & Hh0' & Hid).
  - lia.
  - vm_compute. discriminate.
  - eexists _, _, h0'.
    split; [reflexivity|]. split; [reflexivity|]. split; [exact Hh0'|].
    split; [exact Hne | exact Hid].
Defined.

Lemma afterOpen_emits_once_witness :
  _afterOpen (run (T:=unit) (R:=string) 27
                [Close None; AnimationStateChanged enter_done] example_handle)
  = Subject.mk [()] true ∧
  ∃ event, AnimationStateChanged (T:=unit) (R:=string) enter_done
           = AnimationStateChanged event ∧
           phaseName event = "done" ∧ toState event = "enter".
Proof.
  split.
  - exact (proj1 (afterOpen_emits_once (T:=unit) (R:=string) 27
                    example_container true None 0
                    [Close None; AnimationStateChanged enter_done])).
  - destruct (afterOpen_emits_once (T:=unit) (R:=string) 27
                example_container true None 0 [Close None]) as [_ H].
    destruct (H (AnimationStateChanged enter_done)) as [H1 _].
    + vm_compute. discriminate.
    + exact H1.
Defined.

Lemma exit_done_disposes_witness :
  let s := run (T:=unit) 27
             [AnimationStateChanged enter_done; Close (Some "ok");
              AnimationStateChanged exit_start] example_handle in
  let s' := animationStateChanged exit_done s in
  calls s' = [container_startExitAnimation; overlay_detachBackdrop;
              overlay_dispose; locationChanges_unsubscribe] ∧
  is_live (_locationChanges s') = false ∧
  _afterClosed s' = Subject.mk [Some "ok"] true ∧
  componentInstance s' = js_null.
Proof.
  intros s s'.
  destruct (exit_done_disposes (T:=unit) (R:=string) 27 example_container
              true None 0
              [AnimationStateChanged enter_done; Close (Some "ok");
               AnimationStateChanged exit_start] exit_done
              eq_refl eq_refl eq_refl) as (H1 & H2 & H3 & H4).
  split; [exact H1|]. split; [exact H2|]. split; [exact H3 | exact H4].
Defined.

Lemma escape_closes_once_witness :
  keydownEvent 27 {| keyCode := 27 |} (example_handle (T:=unit) (R:=string))
  = close None example_handle ∧
  keydownEvent 27 {| keyCode := 27 |}
    (set_disableClose (Some true) (example_handle (T:=unit) (R:=string)))
  = set_disableClose (Some true) example_handle.
Proof.
  split.
  - destruct (escape_closes_once (T:=unit) (R:=string) 27
                {| keyCode := 27 |} example_handle) as [H _].
    exact (proj1 (H eq_refl eq_refl)).
  - destruct (escape_closes_once (T:=unit) (R:=string) 27
                {| keyCode := 27 |}
                (set_disableClose (Some true) example_handle)) as [_ H].
    exact (H (or_introl eq_refl)).
Defined.

Lemma updatePosition_anchors_witness :
  ∃ h' : MatDialogRef (T:=unit) (R:=string),
    handles
      (call_updatePosition 0
         (Some {| DialogPosition.top := None; DialogPosition.bottom := None;
                  DialogPosition.left := Some "10px";
                  DialogPosition.right := None |})
         (exec 27 [op_new example_container false None] initial_process)).1
      !! 0 = Some h' ∧
    calls h' = [strategy_left (Some "10px"); strategy_centerVertically;
                overlay_updatePosition].
Proof.
  destruct (updatePosition_anchors (T:=unit) (R:=string) 0
              (Some {| DialogPosition.top := None;
                       DialogPosition.bottom := None;
                       DialogPosition.left := Some "10px";
                       DialogPosition.right := None |})
              (exec 27 [op_new example_container false None] initial_process)
              _ eq_refl)
    as (_ & h' & horizontal & vertical & Hh' & Hcalls & Hl & _ & _ & _
        & _ & _ & Hcv & _).
  assert (Hnone : ¬ given None) by (intros (s & Hs & _); discriminate).
  exists h'. split; [exact Hh'|].
  rewrite Hcalls, Hl, Hcv.
  - reflexivity.
  - exact Hnone.
  - exact Hnone.
  - exists "10px". split; [reflexivity | discriminate].
Defined.

Lemma updateSize_sets_both_witness :
  ∃ h' : MatDialogRef (T:=unit) (R:=string),
    handles
      (call_updateSize 0 (Some "200px") (Some "100px")
         (exec 27 [op_new example_container false None] initial_process)).1
      !! 0 = Some h' ∧
    calls h' = [strategy_width "200px"; strategy_height "100px";
                overlay_updatePosition] ∧
    count_call overlay_updatePosition (calls h') = 1.
Proof.
  destruct (updateSize_sets_both (T:=unit) (R:=string) 0
              (Some "200px") (Some "100px")
              (exec 27 [op_new example_container false None] initial_process)
              _ eq_refl)
    as (_ & h' & Hh' & Hcalls & Hcount).
  exists h'. split; [exact Hh'|]. split; [exact Hcalls | exact Hcount].
Defined.

Lemma updatePosition_empty_offset_witness :
  calls
    (updatePosition
       (Some {| DialogPosition.top := Some ""; DialogPosition.bottom := None;
                DialogPosition.left := Some "";
                DialogPosition.right := Some "5px" |})
       (example_handle (T:=unit) (R:=string)))
  = [strategy_right (Some "5px"); strategy_centerVertically;
     overlay_updatePosition].
Proof.
  destruct (updatePosition_empty_offset (T:=unit) (R:=string)
              {| DialogPosition.top := Some ""; DialogPosition.bottom := None;
                 DialogPosition.left := Some "";
                 DialogPosition.right := Some "5px" |} example_handle)
    as (horizontal & vertical & Hcalls & Hleft & Htop & _).
  destruct (Hleft eq_refl) as [Hright _].
  destruct (Htop eq_refl) as [_ Hcentre].
  rewrite Hcalls, Hright, Hcentre.
  - reflexivity.
  - intros (s & Hs & _). discriminate.
  - exists "5px". split; [reflexivity | discriminate].
Defined.

Lemma escape_closes_unless_disabled_witness :
  keydownEvent 27 {| keyCode := 27 |}
    (set_disableClose None (example_handle (T:=unit) (R:=string)))
  = close None (set_disableClose None example_handle).
Proof.
  destruct (escape_closes_unless_disabled (T:=unit) (R:=string) 27
              {| keyCode := 27 |} (set_disableClose None example_handle))
    as [H _].
  apply H. split; [reflexivity | discriminate].
Defined.

Lemma completed_channel_never_changes_witness :
  let s := run (T:=unit) 27
             [Close (Some "ok"); AnimationStateChanged exit_start]
             example_handle in
  _beforeClose
    (run 27 [Close (Some "again"); AnimationStateChanged exit_start;
             KeydownEvent {| keyCode := 27 |};
             AnimationStateChanged enter_start] s)
  = _beforeClose s.
Proof.
  intros s.
  destruct (completed_channel_never_changes (T:=unit) (R:=string) 27
              [Close (Some "again"); AnimationStateChanged exit_start;
               KeydownEvent {| keyCode := 27 |};
               AnimationStateChanged enter_start] s) as (_ & _ & H).
  apply H. reflexivity.
Defined.

Lemma start_runs_pending_closes_witness :
  let s := close (Some "b") (close (Some "a") (example_handle (T:=unit))) in
  let s' := animationStateChanged exit_start s in
  calls s' = calls s ++ [overlay_detachBackdrop; overlay_detachBackdrop] ∧
  _beforeClose s' = Subject.mk [Some "a"] true.
Proof.
  intros s s'.
  destruct (start_runs_pending_closes (T:=unit) (R:=string) exit_start s
              eq_refl) as (_ & H1 & H2 & _).
  split; [exact H1 | exact H2].
Defined.

Lemma single_close_agreement_witness :
  let s := run (T:=unit) 27
             [AnimationStateChanged exit_start;
              AnimationStateChanged exit_done]
             (close (Some "ok")
                (run 27 [AnimationStateChanged enter_done] example_handle)) in
  _beforeClose s = Subject.mk [Some "ok"] true ∧
  _afterClosed s = Subject.mk [Some "ok"] true.
Proof.
  intros s.
  destruct (single_close_agreement (T:=unit) (R:=string) 27
              example_container true None 0
              [AnimationStateChanged enter_done]
              [AnimationStateChanged exit_start;
               AnimationStateChanged exit_done] (Some "ok")
              eq_refl eq_refl eq_refl) as [H1 H2].
  split; [exact H1 | exact H2].
Defined.

Lemma without_close_nothing_closes_witness :
  let s := run (T:=unit) (R:=string) 27
             [AnimationStateChanged exit_start;
              KeydownEvent {| keyCode := 13 |};
              AnimationStateChanged exit_done] example_handle in
  _beforeClose s = Subject.new ∧ _afterClosed s = Subject.mk [None] true.
Proof.
  intros s.
  destruct (without_close_nothing_closes (T:=unit) (R:=string) 27
              example_container true None 0
              [AnimationStateChanged exit_start;
               KeydownEvent {| keyCode := 13 |};
               AnimationStateChanged exit_done] eq_refl)
    as (_ & H1 & _ & _ & H2).
  split; [exact H1 | exact H2].
Defined.

Lemma position_and_size_leave_life_alone_witness :
  let s := run (T:=unit) (R:=string) 27
             [Close None; AnimationStateChanged exit_start;
              AnimationStateChanged exit_done] example_handle in
  _containerInstance (step 27 (UpdateSize None None) s) = _containerInstance s ∧
  count_call overlay_dispose (calls (step 27 (UpdateSize None None) s))
  = count_call overlay_dispose (calls s).
Proof.
  intros s.
  destruct (position_and_size_leave_life_alone (T:=unit) (R:=string) 27
              (UpdateSize None None) s)
    as (_&_&_&_&_&_&_&_& Hc &_&_&_&_& H).
  - right. by exists None, None.
  - split; [exact Hc|].
    apply H. unfold lifecycle_calls. rewrite !elem_of_cons. auto.
Defined.

Lemma counter_counts_defaults_witness :
  uniqueId (exec (T:=unit) (R:=string) 27 example_ops initial_process) = 3%N.
Proof.
  destruct (counter_counts_defaults (T:=unit) (R:=string) 27 example_ops)
    as (H & _ & _).
  - vm_compute. discriminate.
  - exact H.
Defined.
